(** * precalculate.py: the Precalculator coordinator

    A model of [Precalculator] (src/precalculate.py) running on top of
  Python's [multiprocessing.pool.ThreadPool] and [queue.Queue].

  The program is concurrent: the thread that calls [create], [get],
  [destroy] and [stop] runs next to the worker and result-handler threads
  of two thread pools.  The model is an interleaving semantics:

  - the methods are written as programs ([prog]) over the atomic operations
    the source performs on its pools and on its queue ([prim]);
  - the pool threads are worker steps ([worker_step]);
  - a schedule ([list choice]) picks, step after step, who moves; [run]
    executes a schedule, so every behaviour can be evaluated.

  Statements about "every execution" quantify over all schedules. *)

From stdpp Require Import base list strings relations.
From Stdlib Require Import Lia.

Set Default Proof Using "Type".

(** ** Python values shared by the model *)

(** The exceptions that occur: [ValueError] is what the pool raises,
  [Exception] stands for whatever a caller-supplied callable raises. *)
Inductive exn : Type :=
| ValueError (msg : string)
| Exception (msg : string).

(** Result of calling a Python callable. *)
Inductive outcome (A : Type) : Type :=
| Returns (a : A)
| Raises (e : exn).
Arguments Returns {A} a.
Arguments Raises {A} e.

(** ** multiprocessing.pool.ThreadPool

  [T] is the type of the arguments of a task, [R] of its result.  A job
  sits in [_inqueue] until a worker takes it, in [_running] while a worker
  executes it, and in [_outqueue] until the result handler has set its
  result (and called its callback).  The three lists together are the
  pool's job cache. *)
Inductive pool_state : Type := RUN | CLOSE | TERMINATE.

Record ThreadPool (T R : Type) : Type := mkPool {
  _processes : nat;
  _state : pool_state;
  _inqueue : list T;
  _running : list T;
  _outqueue : list (outcome R)
}.
Arguments mkPool {T R}.
Arguments _processes {T R}.
Arguments _state {T R}.
Arguments _inqueue {T R}.
Arguments _running {T R}.
Arguments _outqueue {T R}.

Module Pool.
Section Pool.
Context {T R : Type}.
Implicit Types p : ThreadPool T R.

(** [Pool.__init__]: [if processes < 1: raise ValueError(...)]. *)
Definition new (processes : nat) : outcome (ThreadPool T R) :=
  if decide (processes < 1)
  then Raises (ValueError "Number of processes must be at least 1")
  else Returns (mkPool processes RUN [] [] []).

(** Number of jobs submitted and not yet completed ([len(pool._cache)]). *)
Definition jobs p : nat :=
  length (_inqueue p) + length (_running p) + length (_outqueue p).

(** Steps the pool's threads still have to make for the jobs it holds. *)
Definition backlog p : nat :=
  3 * length (_inqueue p) + 2 * length (_running p) + length (_outqueue p).

(** [apply_async]: [_check_running()] then enqueue the task. *)
Definition apply_async (t : T) p : outcome (ThreadPool T R) :=
  match _state p with
  | RUN => Returns (mkPool (_processes p) RUN (_inqueue p ++ [t])
                           (_running p) (_outqueue p))
  | _ => Raises (ValueError "Pool not running")
  end.

(** [close]: [if self._state == RUN: self._state = CLOSE]. *)
Definition close p : ThreadPool T R :=
  match _state p with
  | RUN => mkPool (_processes p) CLOSE (_inqueue p) (_running p) (_outqueue p)
  | _ => p
  end.

(** [join]: raises on a running pool, otherwise waits until the pool's
    threads have exited, which they do once the job cache is empty.
    [None] means that the caller has to wait. *)
Definition join p : outcome (option (ThreadPool T R)) :=
  match _state p with
  | RUN => Raises (ValueError "Pool is still running")
  | _ => Returns (if decide (jobs p = 0) then Some p else None)
  end.

(** A free worker takes the oldest queued task. *)
Definition take p : option (ThreadPool T R) :=
  match _inqueue p with
  | t :: q =>
      if decide (length (_running p) < _processes p)
      then Some (mkPool (_processes p) (_state p) q (_running p ++ [t])
                        (_outqueue p))
      else None
  | [] => None
  end.

(** The worker running the [i]-th task in flight finishes it with result
    [r]: [put((job, i, result))]. *)
Definition finish (i : nat) (r : outcome R) p : ThreadPool T R :=
  mkPool (_processes p) (_state p) (_inqueue p) (delete i (_running p))
         (_outqueue p ++ [r]).

(** The result handler takes the oldest result off the out-queue. *)
Definition handle p : option (outcome R * ThreadPool T R) :=
  match _outqueue p with
  | r :: q => Some (r, mkPool (_processes p) (_state p) (_inqueue p)
                              (_running p) q)
  | [] => None
  end.
End Pool.
End Pool.

Inductive pool_id : Type := CreatePool | DestroyPool.

Section Precalculate.
Context {Obj World : Type}.

(** The caller's callables act on the world outside the coordinator. *)
Definition Constructor : Type := World → outcome Obj * World.
Definition Destructor : Type := Obj → World → outcome unit * World.

(** [lambda x: None], the default destructor. *)
Definition default_destructor : Destructor := λ _ w, (Returns tt, w).

(** What has happened so far, in order.  The first six events are
    operations of the calling thread, the last three of pool threads. *)
Inductive event : Type :=
| Ev_submit_create
| Ev_submit_destroy (obj : Obj)
| Ev_close (p : pool_id)
| Ev_join (p : pool_id)
| Ev_queue_get (obj : Obj)
| Ev_qsize (n : nat)
| Ev_constructor (r : outcome Obj)
| Ev_queue_put (obj : Obj)
| Ev_destructor (obj : Obj) (r : outcome unit).

(** The fields of a [Precalculator] instance, the world its callables act
    on, and the history of events. *)
Record state : Type := mkState {
  _constructor : Constructor;
  _destructor : Destructor;
  _create_pool : ThreadPool unit Obj;
  _destroy_pool : ThreadPool Obj unit;
  _queue : list Obj;
  world : World;
  trace : list event
}.

(** [Precalculator.__init__] *)
Definition __init__ (constructor : Constructor) (destructor : Destructor)
    (create_pool : ThreadPool unit Obj) (destroy_pool : ThreadPool Obj unit)
    (w : World) : state :=
  mkState constructor destructor create_pool destroy_pool [] w [].

Definition set_create_pool (p : ThreadPool unit Obj) (ev : list event)
    (s : state) : state :=
  mkState (_constructor s) (_destructor s) p (_destroy_pool s) (_queue s)
          (world s) (trace s ++ ev).

Definition set_destroy_pool (p : ThreadPool Obj unit) (ev : list event)
    (s : state) : state :=
  mkState (_constructor s) (_destructor s) (_create_pool s) p (_queue s)
          (world s) (trace s ++ ev).

Definition set_queue (q : list Obj) (ev : list event) (s : state) : state :=
  mkState (_constructor s) (_destructor s) (_create_pool s) (_destroy_pool s)
          q (world s) (trace s ++ ev).

Definition set_world (w : World) (s : state) : state :=
  mkState (_constructor s) (_destructor s) (_create_pool s) (_destroy_pool s)
          (_queue s) w (trace s).

(** ** The calling thread *)

(** The atomic operations of the source on its pools and its queue. *)
Inductive prim : Type → Type :=
| create_pool_apply_async : prim unit
    (* self._create_pool.apply_async(self._constructor,
                                     callback=self._queue.put) *)
| destroy_pool_apply_async (obj : Obj) : prim unit
    (* self._destroy_pool.apply_async(self._destructor, (obj,)) *)
| pool_close (p : pool_id) : prim unit
| pool_join (p : pool_id) : prim unit
| queue_get : prim Obj
| queue_qsize : prim nat.

Inductive prim_result (X : Type) : Type :=
| Value (x : X) (s : state)
| Throw (e : exn)
| Block.
Arguments Value {X} x s.
Arguments Throw {X} e.
Arguments Block {X}.

Definition prim_step {X} (e : prim X) (s : state) : prim_result X :=
  match e in prim X return prim_result X with
  | create_pool_apply_async =>
      match Pool.apply_async tt (_create_pool s) with
      | Returns p => Value tt (set_create_pool p [Ev_submit_create] s)
      | Raises e => Throw e
      end
  | destroy_pool_apply_async obj =>
      match Pool.apply_async obj (_destroy_pool s) with
      | Returns p => Value tt (set_destroy_pool p [Ev_submit_destroy obj] s)
      | Raises e => Throw e
      end
  | pool_close CreatePool =>
      Value tt (set_create_pool (Pool.close (_create_pool s))
                                [Ev_close CreatePool] s)
  | pool_close DestroyPool =>
      Value tt (set_destroy_pool (Pool.close (_destroy_pool s))
                                 [Ev_close DestroyPool] s)
  | pool_join CreatePool =>
      match Pool.join (_create_pool s) with
      | Returns (Some p) => Value tt (set_create_pool p [Ev_join CreatePool] s)
      | Returns None => Block
      | Raises e => Throw e
      end
  | pool_join DestroyPool =>
      match Pool.join (_destroy_pool s) with
      | Returns (Some p) =>
          Value tt (set_destroy_pool p [Ev_join DestroyPool] s)
      | Returns None => Block
      | Raises e => Throw e
      end
  | queue_get =>
      match _queue s with
      | obj :: q => Value obj (set_queue q [Ev_queue_get obj] s)
      | [] => Block
      end
  | queue_qsize =>
      Value (length (_queue s))
            (set_queue (_queue s) [Ev_qsize (length (_queue s))] s)
  end.

(** Code of the calling thread. *)
Inductive prog : Type → Type :=
| Ret {A} (a : A) : prog A
| Bind {A B} (p : prog A) (k : A → prog B) : prog B
| Call {X} (e : prim X) : prog X
| While (c : prog bool) (b : prog unit) : prog unit.

Fixpoint for_in {A} (l : list A) (body : A → prog unit) : prog unit :=
  match l with
  | [] => Ret tt
  | x :: l' => Bind (body x) (λ _, for_in l' body)
  end.

(** One turn of [while c: b]: evaluate [c], then run [b] and loop, or leave. *)
Definition unfold_while (c : prog bool) (b : prog unit) : prog unit :=
  Bind c (λ v : bool, if v then Bind b (λ _, While c b) else Ret tt).

Inductive step_result (A : Type) : Type :=
| Done (a : A)
| Stepped (p : prog A) (s : state)
| Raised (e : exn)
| Blocked.
Arguments Done {A} a.
Arguments Stepped {A} p s.
Arguments Raised {A} e.
Arguments Blocked {A}.

(** One step of the calling thread. *)
Fixpoint main_step {A} (p : prog A) (s : state) : step_result A :=
  match p in prog A return step_result A with
  | Ret a => Done a
  | Bind p k =>
      match main_step p s with
      | Done a => Stepped (k a) s
      | Stepped p' s' => Stepped (Bind p' k) s'
      | Raised e => Raised e
      | Blocked => Blocked
      end
  | Call e =>
      match prim_step e s with
      | Value x s' => Stepped (Ret x) s'
      | Throw e => Raised e
      | Block => Blocked
      end
  | While c b => Stepped (unfold_while c b) s
  end.

(** ** The methods of [Precalculator] *)

(** [self._create_pool.apply_async(self._constructor,
    callback=self._queue.put)] *)
Definition _precalc : prog unit :=
  Call create_pool_apply_async.

(** [self._destroy_pool.apply_async(self._destructor, (obj,))] *)
Definition destroy (obj : Obj) : prog unit :=
  Call (destroy_pool_apply_async obj).

(** [close] and [join] of the creation pool,
    [while self._queue.qsize(): self.destroy(self._queue.get())],
    [close] and [join] of the destruction pool. *)
Definition stop : prog unit :=
  Bind (Call (pool_close CreatePool)) (λ _,
  Bind (Call (pool_join CreatePool)) (λ _,
  Bind (While (Bind (Call queue_qsize) (λ n, Ret (negb (n =? 0))))
              (Bind (Call queue_get) destroy)) (λ _,
  Bind (Call (pool_close DestroyPool)) (λ _,
  Call (pool_join DestroyPool))))).

(** [self._precalc(); return self._queue.get()] *)
Definition get : prog Obj :=
  Bind _precalc (λ _, Call queue_get).

(** [Precalculator.create].  The two [ThreadPool(...)] calls and
    [__init__] allocate the instance; what is left of the body, the seeding
    loop, is returned with it and runs next to the pool threads. *)
Definition create (constructor : Constructor)
    (destructor : option Destructor)
    (num_create_threads num_destroy_threads : option nat)
    (w : World) : outcome (prog unit * state) :=
  let destructor := default default_destructor destructor in
  let num_create_threads := default 2 num_create_threads in
  let num_destroy_threads := default 1 num_destroy_threads in
  match Pool.new num_create_threads with
  | Raises e => Raises e
  | Returns create_pool =>
      match Pool.new num_destroy_threads with
      | Raises e => Raises e
      | Returns destroy_pool =>
          Returns (for_in (seq 0 num_create_threads) (λ _, _precalc),
                   __init__ constructor destructor create_pool destroy_pool w)
      end
  end.

(** ** The pool threads *)

Inductive action : Type :=
| Take (p : pool_id)
| Run (p : pool_id) (i : nat)
| Handle (p : pool_id).

Definition worker_step (a : action) (s : state) : option state :=
  match a with
  | Take CreatePool =>
      p ← Pool.take (_create_pool s); Some (set_create_pool p [] s)
  | Take DestroyPool =>
      p ← Pool.take (_destroy_pool s); Some (set_destroy_pool p [] s)
  | Run CreatePool i =>
      _ ← _running (_create_pool s) !! i;
      let '(r, w) := _constructor s (world s) in
      Some (set_world w (set_create_pool
              (Pool.finish i r (_create_pool s)) [Ev_constructor r] s))
  | Run DestroyPool i =>
      obj ← _running (_destroy_pool s) !! i;
      let '(r, w) := _destructor s obj (world s) in
      Some (set_world w (set_destroy_pool
              (Pool.finish i r (_destroy_pool s)) [Ev_destructor obj r] s))
  | Handle CreatePool =>
      '(r, p) ← Pool.handle (_create_pool s);
      match r with
      | Returns obj =>
          (* callback=self._queue.put *)
          Some (set_queue (_queue s ++ [obj]) [Ev_queue_put obj]
                  (set_create_pool p [] s))
      | Raises _ => Some (set_create_pool p [] s)
      end
  | Handle DestroyPool =>
      '(_, p) ← Pool.handle (_destroy_pool s);
      Some (set_destroy_pool p [] s)
  end.

(** ** Schedules *)

Inductive choice : Type :=
| Main
| Worker (a : action).

Definition sched_step {A} (c : choice) (cfg : prog A * state)
    : option (prog A * state) :=
  match c with
  | Main =>
      match main_step (fst cfg) (snd cfg) with
      | Stepped p s => Some (p, s)
      | _ => None
      end
  | Worker a =>
      s ← worker_step a (snd cfg); Some (fst cfg, s)
  end.

Fixpoint run {A} (sched : list choice) (cfg : prog A * state)
    : option (prog A * state) :=
  match sched with
  | [] => Some cfg
  | c :: sched' => cfg' ← sched_step c cfg; run sched' cfg'
  end.

Definition result {A} (p : prog A) : option A :=
  match p with
  | Ret a => Some a
  | _ => None
  end.

(** ** Clients and observations *)

(** The loop of test_stop: [k] times [obj = precalc.get();
    precalc.destroy(obj)]. *)
Definition cycles (k : nat) : prog unit :=
  for_in (seq 0 k) (λ _, Bind get destroy).

(** A whole life of an instance: the rest of [create], [k] cycles, [stop]. *)
Definition client (seed : prog unit) (k : nat) : prog unit :=
  Bind seed (λ _, Bind (cycles k) (λ _, stop)).

Definition is_main (e : event) : bool :=
  match e with
  | Ev_constructor _ | Ev_queue_put _ | Ev_destructor _ _ => false
  | _ => true
  end.

(** The operations of the calling thread, in order. *)
Definition main_events (tr : list event) : list event :=
  List.filter is_main tr.

(** The objects the constructor has returned, in order. *)
Definition constructed (tr : list event) : list Obj :=
  omap (λ e, match e with Ev_constructor (Returns obj) => Some obj
                        | _ => None end) tr.

(** The calls of the constructor that raised. *)
Definition failed (tr : list event) : list exn :=
  omap (λ e, match e with Ev_constructor (Raises x) => Some x
                        | _ => None end) tr.

(** The objects the destructor has been called on, in order. *)
Definition destroyed (tr : list event) : list Obj :=
  omap (λ e, match e with Ev_destructor obj _ => Some obj | _ => None end) tr.

(** Number of construction tasks submitted. *)
Definition submitted (tr : list event) : nat :=
  length (List.filter (λ e, match e with Ev_submit_create => true
                                       | _ => false end) tr).

(** The objects submitted for destruction, in order. *)
Definition submitted_destroy (tr : list event) : list Obj :=
  omap (λ e, match e with Ev_submit_destroy obj => Some obj
                        | _ => None end) tr.

(** The objects in a list of results. *)
Definition returned {R} (l : list (outcome R)) : list R :=
  omap (λ r, match r with Returns a => Some a | Raises _ => None end) l.

(** Construction tasks not completed plus objects ready. *)
Definition supply (s : state) : nat :=
  Pool.jobs (_create_pool s) + length (_queue s).

(** ** Invariants *)

(** The constructor returns an object on every call. *)
Definition nonfailing (constructor : Constructor) : Prop :=
  ∀ w, ∃ obj w', constructor w = (Returns obj, w').

Definition succeeded {R} (r : outcome R) : Prop :=
  match r with Returns _ => True | Raises _ => False end.

(** No construction has failed and none will. *)
Definition healthy (s : state) : Prop :=
  nonfailing (_constructor s) ∧
  Forall succeeded (_outqueue (_create_pool s)) ∧
  failed (trace s) = [].

(** Where every submitted construction task and every constructed object
    is, when the calling thread holds the objects [held]. *)
Definition accounted (held : list Obj) (s : state) : Prop :=
  submitted (trace s) =
    length (_inqueue (_create_pool s)) + length (_running (_create_pool s)) +
    length (constructed (trace s)) + length (failed (trace s)) ∧
  constructed (trace s) ≡ₚ
    returned (_outqueue (_create_pool s)) ++ _queue s ++ held ++
    _inqueue (_destroy_pool s) ++ _running (_destroy_pool s) ++
    destroyed (trace s).

(** Both pools have workers. *)
Definition staffed (s : state) : Prop :=
  1 ≤ _processes (_create_pool s) ∧ 1 ≤ _processes (_destroy_pool s).

(** Both pools have workers and are in the given states. *)
Definition pools (sc sd : pool_state) (s : state) : Prop :=
  staffed s ∧ _state (_create_pool s) = sc ∧ _state (_destroy_pool s) = sd.

(** The Running state, with supply [n]. *)
Definition running (n : nat) (s : state) : Prop :=
  healthy s ∧ supply s = n ∧ pools RUN RUN s.

(** Code that uses a running instance through [get] and [destroy] only. *)
Inductive api : ∀ A, prog A → Prop :=
| api_ret A (a : A) : api A (Ret a)
| api_bind A B (p : prog A) (k : A → prog B) :
    api A p → (∀ a, api B (k a)) → api B (Bind p k)
| api_get : api Obj get
| api_destroy obj : api unit (destroy obj).

(** [n] construction tasks were submitted, all are accounted for, the
    calling thread holds [held]. *)
Definition tracked (n : nat) (held : list Obj) (s : state) : Prop :=
  accounted held s ∧ submitted (trace s) = n.

(** Every construction task has completed. *)
Definition drained (s : state) : Prop :=
  Pool.jobs (_create_pool s) = 0.

(** Every construction task has completed and the queue is empty. *)
Definition emptied (s : state) : Prop :=
  drained s ∧ _queue s = [].

(** Nothing is left to do for any pool thread. *)
Definition quiescent (s : state) : Prop :=
  emptied s ∧ Pool.jobs (_destroy_pool s) = 0.

(** Inside the loop of [stop]: construction is over, [n] objects are left. *)
Definition draining (n : nat) (s : state) : Prop :=
  pools CLOSE RUN s ∧ drained s ∧ length (_queue s) = n.

(** ** Histories *)

(** The objects put on the queue by the callback, in order. *)
Definition puts (tr : list event) : list Obj :=
  omap (λ e, match e with Ev_queue_put obj => Some obj | _ => None end) tr.

(** Number of calls of the constructor. *)
Definition calls (tr : list event) : nat :=
  length (List.filter (λ e, match e with Ev_constructor _ => true
                                       | _ => false end) tr).

(** The events of the creation pipeline. *)
Definition creations (tr : list event) : list event :=
  List.filter (λ e, match e with Ev_constructor _ | Ev_queue_put _ => true
                               | _ => false end) tr.

(** The event that an operation of the calling thread leaves. *)
Definition event_of {X} (e : prim X) : X → event :=
  match e in prim X return X → event with
  | create_pool_apply_async => λ _, Ev_submit_create
  | destroy_pool_apply_async obj => λ _, Ev_submit_destroy obj
  | pool_close p => λ _, Ev_close p
  | pool_join p => λ _, Ev_join p
  | queue_get => λ obj, Ev_queue_get obj
  | queue_qsize => λ n, Ev_qsize n
  end.

(** The object that an operation takes off the queue, if any. *)
Definition got_of {X} (e : prim X) : X → list Obj :=
  match e in prim X return X → list Obj with
  | queue_get => λ obj, [obj]
  | _ => λ _, []
  end.

(** Since [s0] the calling thread has done [m] and taken [got] off the
    queue; the queue and the construction tasks follow from what the pool
    threads have done. *)
Definition history (s0 : state) (m : list event) (got : list Obj)
    (s : state) : Prop :=
  ∃ t, trace s = trace s0 ++ t ∧ main_events t = m ∧
       _queue s0 ++ puts t = got ++ _queue s ∧
       length (_inqueue (_create_pool s)) +
         length (_running (_create_pool s)) + calls t =
       length (_inqueue (_create_pool s0)) +
         length (_running (_create_pool s0)) + submitted t.

(** What the loop of [stop] does on a queue holding [objs]. *)
Fixpoint drain_events (objs : list Obj) : list event :=
  match objs with
  | [] => []
  | obj :: rest =>
      Ev_qsize (length objs) :: Ev_queue_get obj :: Ev_submit_destroy obj ::
      drain_events rest
  end.

(** What [stop] does after its loop has found the queue empty. *)
Definition closing_events : list event :=
  [Ev_qsize 0; Ev_close DestroyPool; Ev_join DestroyPool].

(** [stop] after the creation pool is joined; [ahead] is what the calling
    thread is about to do, given the queue. *)
Definition emptying (s0 : state) (ahead : list Obj → list event)
    (s : state) : Prop :=
  ∃ t1 t2,
    trace s = trace s0 ++ t1 ++ [Ev_join CreatePool] ++ t2 ∧
    main_events t1 = [Ev_close CreatePool] ∧
    calls t1 = length (_inqueue (_create_pool s0)) +
               length (_running (_create_pool s0)) ∧
    creations t2 = [] ∧ drained s ∧
    main_events t2 ++ ahead (_queue s) =
      drain_events (_queue s0 ++ puts t1) ++ closing_events.

(** [stop] has returned. *)
Definition stopped (s0 s : state) : Prop :=
  ∃ t1 t2,
    trace s = trace s0 ++ t1 ++ [Ev_join CreatePool] ++ t2 ++
              [Ev_join DestroyPool] ∧
    main_events t1 = [Ev_close CreatePool] ∧
    calls t1 = length (_inqueue (_create_pool s0)) +
               length (_running (_create_pool s0)) ∧
    creations t2 = [] ∧
    main_events t2 =
      drain_events (_queue s0 ++ puts t1) ++
      [Ev_qsize 0; Ev_close DestroyPool] ∧
    quiescent s.

(** Since [s0], every destruction task is waiting, running or done. *)
Definition destroying (s0 s : state) : Prop :=
  ∃ t, trace s = trace s0 ++ t ∧
       _inqueue (_destroy_pool s) ++ _running (_destroy_pool s) ++ destroyed t
       ≡ₚ _inqueue (_destroy_pool s0) ++ _running (_destroy_pool s0) ++
          submitted_destroy t.

(** Construction is over and the queue holds [n] objects. *)
Definition holding (n : nat) (s : state) : Prop :=
  drained s ∧ length (_queue s) = n.

(** What [stop] is about to do at the head of its loop. *)
Definition loop_events (q : list Obj) : list event :=
  drain_events q ++ closing_events.

(** Neither pool accepts tasks any more. *)
Definition closed (s : state) : Prop :=
  _state (_create_pool s) ≠ RUN ∧ _state (_destroy_pool s) ≠ RUN.


(** The exceptions in a list of results. *)
Definition raised {R} (l : list (outcome R)) : list exn :=
  omap (λ r, match r with Returns _ => None | Raises e => Some e end) l.

(** The supply is [n] less the failed constructions whose result the
    result handler has dropped. *)
Definition balanced (n : nat) (s : state) : Prop :=
  supply s + length (failed (trace s)) =
  n + length (raised (_outqueue (_create_pool s))).

(** ** Executions *)

(** The steps of the pool threads, as a relation. *)
Inductive wstep (s : state) : state → Prop :=
| ws_take_create t q :
    _inqueue (_create_pool s) = t :: q →
    length (_running (_create_pool s)) < _processes (_create_pool s) →
    wstep s (set_create_pool
               (mkPool (_processes (_create_pool s)) (_state (_create_pool s))
                  q (_running (_create_pool s) ++ [t])
                  (_outqueue (_create_pool s))) [] s)
| ws_run_create i t r w :
    _running (_create_pool s) !! i = Some t →
    _constructor s (world s) = (r, w) →
    wstep s (set_world w (set_create_pool
               (Pool.finish i r (_create_pool s)) [Ev_constructor r] s))
| ws_put obj q :
    _outqueue (_create_pool s) = Returns obj :: q →
    wstep s (set_queue (_queue s ++ [obj]) [Ev_queue_put obj]
               (set_create_pool
                  (mkPool (_processes (_create_pool s))
                     (_state (_create_pool s)) (_inqueue (_create_pool s))
                     (_running (_create_pool s)) q) [] s))
| ws_drop e q :
    _outqueue (_create_pool s) = Raises e :: q →
    wstep s (set_create_pool
               (mkPool (_processes (_create_pool s)) (_state (_create_pool s))
                  (_inqueue (_create_pool s)) (_running (_create_pool s)) q)
               [] s)
| ws_take_destroy obj q :
    _inqueue (_destroy_pool s) = obj :: q →
    length (_running (_destroy_pool s)) < _processes (_destroy_pool s) →
    wstep s (set_destroy_pool
               (mkPool (_processes (_destroy_pool s))
                  (_state (_destroy_pool s)) q
                  (_running (_destroy_pool s) ++ [obj])
                  (_outqueue (_destroy_pool s))) [] s)
| ws_run_destroy i obj r w :
    _running (_destroy_pool s) !! i = Some obj →
    _destructor s obj (world s) = (r, w) →
    wstep s (set_world w (set_destroy_pool
               (Pool.finish i r (_destroy_pool s)) [Ev_destructor obj r] s))
| ws_handle_destroy r q :
    _outqueue (_destroy_pool s) = r :: q →
    wstep s (set_destroy_pool
               (mkPool (_processes (_destroy_pool s))
                  (_state (_destroy_pool s)) (_inqueue (_destroy_pool s))
                  (_running (_destroy_pool s)) q) [] s).

(** A step of some pool thread. *)
Definition bg (s s' : state) : Prop := ∃ a, worker_step a s = Some s'.

(** [p] started in [s] can return [a] in [s']. *)
Definition exec {A} (p : prog A) (s : state) (a : A) (s' : state) : Prop :=
  ∃ sched q, run sched (p, s) = Some (q, s') ∧ result q = Some a.

(** Whatever the pool threads do, [P] stays true. *)
Definition stable (P : state → Prop) : Prop :=
  ∀ s a s', P s → worker_step a s = Some s' → P s'.

(** Started where [P] holds, [p] returns only where [Q] holds. *)
Definition triple {A} (P : state → Prop) (p : prog A)
    (Q : A → state → Prop) : Prop :=
  ∀ s a s', P s → exec p s a s' → Q a s'.

(** From every configuration that [p] can reach from [P], [p] can return. *)
Definition live {A} (P : state → Prop) (p : prog A) : Prop :=
  ∀ sched s q s', P s → run sched (p, s) = Some (q, s') →
    ∃ a s'', exec q s' a s''.

(** A scheduler: pool threads first, the oldest work first. *)
Definition pick {A} (cfg : prog A * state) : option choice :=
  List.find (λ c, bool_decide (is_Some (sched_step c cfg)))
    [Worker (Handle CreatePool); Worker (Run CreatePool 0);
     Worker (Take CreatePool); Worker (Handle DestroyPool);
     Worker (Run DestroyPool 0); Worker (Take DestroyPool); Main].

Fixpoint schedule {A} (fuel : nat) (cfg : prog A * state) : list choice :=
  match fuel with
  | 0 => []
  | S fuel' =>
      match pick cfg with
      | Some c =>
          match sched_step c cfg with
          | Some cfg' => c :: schedule fuel' cfg'
          | None => []
          end
      | None => []
      end
  end.

(** ** Further clients and invariants *)

(** [[precalc.get() for _ in range(k)]]: [k] objects taken and kept. *)
Fixpoint take (k : nat) : prog (list Obj) :=
  match k with
  | 0 => Ret []
  | S k' => Bind get (λ obj, Bind (take k') (λ objs, Ret (obj :: objs)))
  end.

(** Since [s0] the calling thread has done [m] and more, and taken [got]
    and more off the queue. *)
Definition extends (s0 : state) (m : list event) (got : list Obj)
    (s : state) : Prop :=
  ∃ m' got', history s0 (m ++ m') (got ++ got') s.

(** The constructor raises on every call. *)
Definition always_failing (constructor : Constructor) : Prop :=
  ∀ w, ∃ e w', constructor w = (Raises e, w').

(** No object is ready and none will be. *)
Definition barren (s : state) : Prop :=
  always_failing (_constructor s) ∧ _queue s = [] ∧
  returned (_outqueue (_create_pool s)) = [].

(** The pools have the widths [n] and [m] and run no more tasks at a time. *)
Definition within_width (n m : nat) (s : state) : Prop :=
  _processes (_create_pool s) = n ∧ _processes (_destroy_pool s) = m ∧
  length (_running (_create_pool s)) ≤ n ∧
  length (_running (_destroy_pool s)) ≤ m.

(** [s] is [s0] after the calling thread has done [m] and nothing else has
    happened. *)
Definition untouched (s0 : state) (m : list event) (s : state) : Prop :=
  _create_pool s = _create_pool s0 ∧ _destroy_pool s = _destroy_pool s0 ∧
  _queue s = _queue s0 ∧ world s = world s0 ∧ trace s = trace s0 ++ m.

End Precalculate.

Arguments prim : clear implicits.
Arguments prog : clear implicits.
Arguments event : clear implicits.
Arguments state : clear implicits.
Arguments Value {Obj World X} x s.
Arguments Throw {Obj World X} e.
Arguments Block {Obj World X}.
Arguments Done {Obj World A} a.
Arguments Stepped {Obj World A} p s.
Arguments Raised {Obj World A} e.
Arguments Blocked {Obj World A}.

(** ** The objects of test_precalculate.py

    The world is [Factory.created]; an [Obj] is its position in that list,
    and the flag stored there is its [destroyed] attribute. *)
Module Fixtures.

Definition Factory_create : @Constructor nat (list bool) :=
  λ created, (Returns (length created), created ++ [false]).

Definition Obj_destroy : @Destructor nat (list bool) :=
  λ obj created, (Returns tt, <[obj := true]> created).

(** A constructor that raises on every call. *)
Definition broken_create : @Constructor nat (list bool) :=
  λ created, (Raises (Exception "constructor failed"), created).

(** [Precalculator.create(factory.create, Obj.destroy)]: the instance that
    [__init__] makes, and the seeding loop. *)
Definition start : state nat (list bool) :=
  __init__ Factory_create Obj_destroy (mkPool 2 RUN [] [] [])
           (mkPool 1 RUN [] [] []) [].

Definition seed : prog nat unit := for_in (seq 0 2) (λ _, _precalc).

(** Where [p] started in [s] ends under [schedule]. *)
Definition after {A} (p : prog nat A) (s : state nat (list bool))
    : state nat (list bool) :=
  match run (schedule 1000 (p, s)) (p, s) with
  | Some (_, s') => s'
  | None => s
  end.

(** The instance once the two seed objects are in the queue. *)
Definition warm : state nat (list bool) := after seed start.

(** The instance after [get] has taken an object. *)
Definition served : state nat (list bool) := after get warm.

(** The instance after [stop]. *)
Definition halted : state nat (list bool) := after stop warm.

(** An instance whose constructor raises, with one creation task in flight
    and one waiting. *)
Definition failing : state nat (list bool) :=
  mkState broken_create default_destructor
    (mkPool 2 RUN [tt] [tt] []) (mkPool 1 RUN [] [] []) [] []
    [Ev_submit_create; Ev_submit_create].

(** What test_stop relies on: the objects made so far are the positions of
    [Factory.created], no construction has failed, the objects the
    coordinator holds are among them, and the flag of an object says whether
    the destructor has been called on it. *)
Definition marked (s : state nat (list bool)) : Prop :=
  _constructor s = Factory_create ∧ _destructor s = Obj_destroy ∧
  constructed (trace s) = seq 0 (length (world s)) ∧
  failed (trace s) = [] ∧
  (∀ obj, obj ∈ returned (_outqueue (_create_pool s)) ++ _queue s ++
                _inqueue (_destroy_pool s) ++ _running (_destroy_pool s) ++
                destroyed (trace s) →
          obj < length (world s)) ∧
  (∀ i, i < length (world s) →
        world s !! i = Some (bool_decide (i ∈ destroyed (trace s)))).

(** [obj] is one of the objects made so far. *)
Definition known (obj : nat) (s : state nat (list bool)) : Prop :=
  obj < length (world s).

(** No destructor has been called, and none has been asked for. *)
Definition unspoilt (s : state nat (list bool)) : Prop :=
  marked s ∧ destroyed (trace s) = [] ∧ Pool.jobs (_destroy_pool s) = 0.

(** The destruction of [obj] has been asked for: it waits, runs or is done. *)
Definition doomed (obj : nat) (s : state nat (list bool)) : Prop :=
  marked s ∧
  obj ∈ _inqueue (_destroy_pool s) ++ _running (_destroy_pool s) ++
        destroyed (trace s).

End Fixtures.

(** * Properties *)

Section Semantics.
Context {Obj World : Type}.
Implicit Types (s : state Obj World) (sched : list choice).

Local Abbreviation cfg A := (prog Obj A * state Obj World)%type.

Lemma run_app {A} sched1 sched2 (c : cfg A) :
  run (sched1 ++ sched2) c = run sched1 c ≫= run sched2.
Proof.
  revert c. induction sched1 as [|x sched1 IH]; intros c; simpl; [done|].
  destruct (sched_step x c); simpl; [apply IH | done].
Qed.

Lemma result_done {A} (q : prog Obj A) (a : A) s :
  result q = Some a → main_step q s = Done a.
Proof. destruct q; simpl; intros [=]; by subst. Qed.

Lemma done_result {A} (q : prog Obj A) (a : A) s :
  main_step q s = Done a → result q = Some a.
Proof.
  destruct q; simpl; try done.
  - by intros [= ->].
  - by destruct (main_step q s).
  - by destruct (prim_step e s).
Qed.

(** Schedules of pool threads only. *)
Lemma run_workers {A} (p : prog Obj A) s s' :
  rtc bg s s' → ∃ sched, ∀ B (q : prog Obj B), run sched (q, s) = Some (q, s').
Proof.
  induction 1 as [s|s s1 s' [a Ha] _ [sched IH]].
  - by exists [].
  - exists (Worker a :: sched). intros B q. simpl. rewrite Ha. simpl. apply IH.
Qed.

Lemma run_ret {A} sched (a : A) s q s' :
  run sched (Ret a, s) = Some (q, s') → q = Ret a ∧ rtc bg s s'.
Proof.
  revert s. induction sched as [|[|w] sched IH]; intros s; simpl.
  - by intros [= <- <-].
  - done.
  - destruct (worker_step w s) as [s1|] eqn:Hw; simpl; [|done].
    intros [-> H]%IH. split; [done|]. eapply rtc_l; [by exists w|done].
Qed.

Lemma run_call {X} sched (e : prim Obj X) s q s' :
  run sched (Call e, s) = Some (q, s') →
  (q = Call e ∧ rtc bg s s') ∨
  (∃ s1 x s2, rtc bg s s1 ∧ prim_step e s1 = Value x s2 ∧ rtc bg s2 s' ∧
              q = Ret x).
Proof.
  revert s. induction sched as [|[|w] sched IH]; intros s; simpl.
  - intros [= <- <-]. by left.
  - destruct (prim_step e s) as [x s2| |] eqn:He; simpl; try done.
    intros [-> H]%run_ret. right. by exists s, x, s2.
  - destruct (worker_step w s) as [s1|] eqn:Hw; simpl; [|done].
    intros [[-> H]|(s2 & x & s3 & H1 & H2 & H3 & ->)]%IH.
    + left. split; [done|]. eapply rtc_l; [by exists w|done].
    + right. exists s2, x, s3. split_and!; try done.
      eapply rtc_l; [by exists w|done].
Qed.

Lemma run_bind_lift {A B} sched (p p' : prog Obj A) (k : A → prog Obj B) s s' :
  run sched (p, s) = Some (p', s') →
  run sched (Bind p k, s) = Some (Bind p' k, s').
Proof.
  revert p s. induction sched as [|[|w] sched IH]; intros p s; simpl.
  - by intros [= -> ->].
  - destruct (main_step p s) as [|p1 s1| |]; simpl; try done. apply IH.
  - destruct (worker_step w s) as [s1|]; simpl; [apply IH | done].
Qed.

Lemma run_bind {A B} sched (p : prog Obj A) (k : A → prog Obj B) s q s' :
  run sched (Bind p k, s) = Some (q, s') →
  (∃ p', q = Bind p' k ∧ run sched (p, s) = Some (p', s')) ∨
  (∃ sched1 sched2 p1 a s1,
      sched = sched1 ++ Main :: sched2 ∧
      run sched1 (p, s) = Some (p1, s1) ∧ result p1 = Some a ∧
      run sched2 (k a, s1) = Some (q, s')).
Proof.
  revert p s. induction sched as [|[|w] sched IH]; intros p s; simpl.
  - intros [= <- <-]. left. by exists p.
  - destruct (main_step p s) as [a|p1 s1| |] eqn:Hp; simpl; try done.
    + intros Hk. right. exists [], sched, p, a, s. split_and!; try done.
      by eapply done_result.
    + intros [(p' & -> & H)|(sc1 & sc2 & p2 & a & s2 & -> & H1 & H2 & H3)]%IH.
      * left. by exists p'.
      * right. exists (Main :: sc1), sc2, p2, a, s2. simpl. by rewrite Hp.
  - destruct (worker_step w s) as [s1|] eqn:Hw; simpl; [|done].
    intros [(p' & -> & H)|(sc1 & sc2 & p2 & a & s2 & -> & H1 & H2 & H3)]%IH.
    + left. by exists p'.
    + right. exists (Worker w :: sc1), sc2, p2, a, s2. simpl. by rewrite Hw.
Qed.

Lemma run_while sched (c : prog Obj bool) (b : prog Obj unit) s q s' :
  run sched (While c b, s) = Some (q, s') →
  (q = While c b ∧ rtc bg s s') ∨
  (∃ sched1 sched2 s1,
      sched = sched1 ++ Main :: sched2 ∧ rtc bg s s1 ∧
      run sched2 (unfold_while c b, s1) = Some (q, s')).
Proof.
  revert s. induction sched as [|[|w] sched IH]; intros s; simpl.
  - intros [= <- <-]. by left.
  - intros H. right. by exists [], sched, s.
  - destruct (worker_step w s) as [s1|] eqn:Hw; simpl; [|done].
    intros [[-> H]|(sc1 & sc2 & s2 & -> & H1 & H2)]%IH.
    + left. split; [done|]. eapply rtc_l; [by exists w|done].
    + right. exists (Worker w :: sc1), sc2, s2. split_and!; try done.
      eapply rtc_l; [by exists w|done].
Qed.

(** ** Rules for executions *)

Lemma exec_ret {A} (a : A) s : exec (Ret a : prog Obj A) s a s.
Proof. by exists [], (Ret a). Qed.

Lemma exec_bg {A} (p : prog Obj A) s s1 a s' :
  rtc bg s s1 → exec p s1 a s' → exec p s a s'.
Proof.
  intros [sc1 H1]%(run_workers p) (sc2 & q & H2 & Hq).
  exists (sc1 ++ sc2), q. by rewrite run_app, H1.
Qed.

Lemma exec_call {X} (e : prim Obj X) s x s' :
  prim_step e s = Value x s' → exec (Call e) s x s'.
Proof. intros H. exists [Main], (Ret x). simpl. by rewrite H. Qed.

Lemma exec_bind {A B} (p : prog Obj A) (k : A → prog Obj B) s a s1 b s' :
  exec p s a s1 → exec (k a) s1 b s' → exec (Bind p k) s b s'.
Proof.
  intros (sc1 & q1 & H1 & Hq1) (sc2 & q2 & H2 & Hq2).
  exists (sc1 ++ Main :: sc2), q2. split; [|done].
  rewrite run_app, (run_bind_lift _ _ _ _ _ _ H1). simpl.
  by rewrite (result_done _ _ _ Hq1).
Qed.

Lemma exec_while (c : prog Obj bool) (b : prog Obj unit) s a s' :
  exec (unfold_while c b) s a s' → exec (While c b) s a s'.
Proof. intros (sc & q & H & Hq). by exists (Main :: sc), q. Qed.

Lemma exec_ret_inv {A} (a a' : A) s s' :
  exec (Ret a : prog Obj A) s a' s' → a' = a ∧ rtc bg s s'.
Proof. intros (sc & q & [-> H]%run_ret & [= ->]). done. Qed.

Lemma exec_call_inv {X} (e : prim Obj X) s x s' :
  exec (Call e) s x s' →
  ∃ s1 s2, rtc bg s s1 ∧ prim_step e s1 = Value x s2 ∧ rtc bg s2 s'.
Proof.
  intros (sc & q & [[-> _]|(s1 & y & s2 & H1 & H2 & H3 & ->)]%run_call & Hq).
  - done.
  - injection Hq as ->. by exists s1, s2.
Qed.

Lemma exec_bind_inv {A B} (p : prog Obj A) (k : A → prog Obj B) s b s' :
  exec (Bind p k) s b s' → ∃ a s1, exec p s a s1 ∧ exec (k a) s1 b s'.
Proof.
  intros (sc & q & [(p' & -> & _)|(sc1 & sc2 & p1 & a & s1 & -> & H1 & H2 & H3)]%run_bind & Hq).
  - done.
  - exists a, s1. split; [by exists sc1, p1 | by exists sc2, q].
Qed.

(** ** Rules for triples *)

Lemma stable_rtc (P : state Obj World → Prop) s s' :
  stable P → P s → rtc bg s s' → P s'.
Proof.
  intros HP Hs H. induction H as [|s s1 s' [a Ha] _ IH]; [done|].
  apply IH. by eapply HP.
Qed.

Lemma triple_conseq {A} (P P' : state Obj World → Prop) (p : prog Obj A)
    (Q Q' : A → state Obj World → Prop) :
  (∀ s, P s → P' s) → (∀ a s, Q' a s → Q a s) →
  triple P' p Q' → triple P p Q.
Proof. intros HP HQ H s a s' Hs He. apply HQ. eapply H; [by apply HP|done]. Qed.

Lemma triple_ret {A} (P : state Obj World → Prop) (a : A) :
  stable P → triple P (Ret a) (λ a' s, a' = a ∧ P s).
Proof. intros HP s a' s' Hs [-> H]%exec_ret_inv. split; [done|]. by eapply stable_rtc. Qed.

Lemma triple_call {X} (P : state Obj World → Prop) (e : prim Obj X)
    (Q : X → state Obj World → Prop) :
  stable P → (∀ x, stable (Q x)) →
  (∀ s x s', P s → prim_step e s = Value x s' → Q x s') →
  triple P (Call e) Q.
Proof.
  intros HP HQ H s x s' Hs (s1 & s2 & H1 & H2 & H3)%exec_call_inv.
  eapply stable_rtc; [apply HQ| |done]. eapply H; [|done]. by eapply stable_rtc.
Qed.

Lemma triple_bind {A B} (P : state Obj World → Prop) (p : prog Obj A)
    (R : A → state Obj World → Prop) (k : A → prog Obj B)
    (Q : B → state Obj World → Prop) :
  triple P p R → (∀ a, triple (R a) (k a) Q) → triple P (Bind p k) Q.
Proof.
  intros Hp Hk s b s' Hs (a & s1 & H1 & H2)%exec_bind_inv.
  eapply Hk; [|done]. by eapply Hp.
Qed.

Lemma triple_while (I Pb : state Obj World → Prop) (c : prog Obj bool)
    (b : prog Obj unit) (Q : unit → state Obj World → Prop) :
  stable I → stable (Q tt) →
  triple I c (λ v s, if v then Pb s else Q tt s) →
  triple Pb b (λ _, I) →
  triple I (While c b) Q.
Proof.
  intros HI HQ Hc Hb s a s' Hs (sc & q & Hrun & Hq). destruct a.
  revert s Hs Hrun.
  induction sc as [sc IH] using (induction_ltof1 _ (@length _)).
  unfold ltof in IH. intros s Hs Hrun.
  apply run_while in Hrun as [[-> _]|(sc1 & sc2 & s1 & -> & H1 & H2)]; [done|].
  assert (I s1) as Hs1 by by eapply stable_rtc.
  apply run_bind in H2
    as [(p' & -> & _)|(sc3 & sc4 & p1 & v & s2 & -> & H3 & H4 & H5)]; [done|].
  assert (if v then Pb s2 else Q tt s2) as Hv.
  { eapply Hc; [done|]. by exists sc3, p1. }
  destruct v.
  - apply run_bind in H5
      as [(p' & -> & _)|(sc5 & sc6 & p2 & [] & s3 & -> & H6 & H7 & H8)]; [done|].
    eapply (IH sc6); [|eapply Hb; [done|by exists sc5, p2]|done].
    repeat (rewrite length_app; simpl). lia.
  - apply run_ret in H5 as [_ H5]. by eapply stable_rtc.
Qed.

Lemma triple_for_in {A} (I : state Obj World → Prop) (l : list A)
    (body : A → prog Obj unit) :
  stable I → (∀ x, triple I (body x) (λ _, I)) →
  triple I (for_in l body) (λ _, I).
Proof.
  intros HI Hb. induction l as [|x l IH]; simpl.
  - intros s [] s' Hs [_ H]%exec_ret_inv. by eapply stable_rtc.
  - eapply triple_bind; [apply Hb|]. intros ?. apply IH.
Qed.

(** ** What pool threads preserve *)

Lemma worker_step_wstep a s s' : worker_step a s = Some s' → wstep s s'.
Proof.
  destruct a as [[]|[] i|[]]; unfold worker_step, Pool.take, Pool.handle.
  - destruct (_inqueue (_create_pool s)) as [|t q] eqn:Hq; [done|].
    case_decide; [|done]. intros [= <-]. by eapply ws_take_create.
  - destruct (_inqueue (_destroy_pool s)) as [|t q] eqn:Hq; [done|].
    case_decide; [|done]. intros [= <-]. by eapply ws_take_destroy.
  - destruct (_running (_create_pool s) !! i) as [t|] eqn:Hi; [|done]. simpl.
    destruct (_constructor s (world s)) as [r w] eqn:Hc.
    intros [= <-]. by eapply ws_run_create.
  - destruct (_running (_destroy_pool s) !! i) as [t|] eqn:Hi; [|done]. simpl.
    destruct (_destructor s t (world s)) as [r w] eqn:Hc.
    intros [= <-]. by eapply ws_run_destroy.
  - destruct (_outqueue (_create_pool s)) as [|[obj|e] q] eqn:Hq; [done|..];
      simpl; intros [= <-]; [by eapply ws_put | by eapply ws_drop].
  - destruct (_outqueue (_destroy_pool s)) as [|r q] eqn:Hq; [done|].
    simpl. intros [= <-]. by eapply ws_handle_destroy.
Qed.

Lemma wstep_bg s s' : wstep s s' → bg s s'.
Proof.
  intros [t q Hq Hlt|i t r w Hi Hc|obj q Hq|e q Hq|obj q Hq Hlt|i obj r w Hi Hc|r q Hq].
  - exists (Take CreatePool). unfold worker_step, Pool.take.
    rewrite Hq. by case_decide.
  - exists (Run CreatePool i). unfold worker_step. rewrite Hi. simpl. by rewrite Hc.
  - exists (Handle CreatePool). unfold worker_step, Pool.handle. by rewrite Hq.
  - exists (Handle CreatePool). unfold worker_step, Pool.handle. by rewrite Hq.
  - exists (Take DestroyPool). unfold worker_step, Pool.take.
    rewrite Hq. by case_decide.
  - exists (Run DestroyPool i). unfold worker_step. rewrite Hi. simpl. by rewrite Hc.
  - exists (Handle DestroyPool). unfold worker_step, Pool.handle. by rewrite Hq.
Qed.

Lemma stable_wstep (P : state Obj World → Prop) :
  (∀ s s', P s → wstep s s' → P s') → stable P.
Proof. intros H s a s' Hs Ha%worker_step_wstep. by eapply H. Qed.

Lemma stable_use (P : state Obj World → Prop) s s' :
  stable P → P s → wstep s s' → P s'.
Proof. intros H Hs [a Ha]%wstep_bg. by eapply H. Qed.

Lemma stable_and (P Q : state Obj World → Prop) :
  stable P → stable Q → stable (λ s, P s ∧ Q s).
Proof. intros HP HQ s a s' [??] ?. split; [by eapply HP | by eapply HQ]. Qed.

Lemma stable_const (φ : Prop) : stable (λ _ : state Obj World, φ).
Proof. by intros s a s' H _. Qed.

Lemma submitted_app (tr1 tr2 : list (event Obj)) :
  submitted (tr1 ++ tr2) = submitted tr1 + submitted tr2.
Proof. unfold submitted. by rewrite List.filter_app, length_app. Qed.

Lemma submitted_one (e : event Obj) :
  submitted [e] = match e with Ev_submit_create => 1 | _ => 0 end.
Proof. by destruct e. Qed.

Lemma constructed_app (tr1 tr2 : list (event Obj)) :
  constructed (tr1 ++ tr2) = constructed tr1 ++ constructed tr2.
Proof. apply omap_app. Qed.

Lemma failed_app (tr1 tr2 : list (event Obj)) :
  failed (tr1 ++ tr2) = failed tr1 ++ failed tr2.
Proof. apply omap_app. Qed.

Lemma destroyed_app (tr1 tr2 : list (event Obj)) :
  destroyed (tr1 ++ tr2) = destroyed tr1 ++ destroyed tr2.
Proof. apply omap_app. Qed.

Lemma submitted_destroy_app (tr1 tr2 : list (event Obj)) :
  submitted_destroy (tr1 ++ tr2) = submitted_destroy tr1 ++ submitted_destroy tr2.
Proof. apply omap_app. Qed.

Lemma main_events_app (tr1 tr2 : list (event Obj)) :
  main_events (tr1 ++ tr2) = main_events tr1 ++ main_events tr2.
Proof. apply List.filter_app. Qed.

Lemma returned_app {R} (l1 l2 : list (outcome R)) :
  returned (l1 ++ l2) = returned l1 ++ returned l2.
Proof. apply omap_app. Qed.

Ltac obs :=
  cbn [_constructor _destructor _create_pool _destroy_pool _queue world trace
       set_create_pool set_destroy_pool set_queue set_world
       _processes _state _inqueue _running _outqueue Pool.finish] in *;
  rewrite ?app_nil_r in *;
  rewrite ?submitted_app, ?constructed_app, ?failed_app, ?destroyed_app,
    ?submitted_destroy_app, ?main_events_app, ?returned_app, ?length_app,
    ?submitted_one in *;
  simpl in *;
  rewrite ?app_nil_r, ?Nat.add_0_r in *.

Lemma length_delete_Some {A} (l : list A) i x :
  l !! i = Some x → S (length (delete i l)) = length l.
Proof.
  intros H. rewrite length_delete by eauto. apply lookup_lt_Some in H. lia.
Qed.

Lemma stable_healthy : stable (@healthy Obj World).
Proof.
  apply stable_wstep. intros s s' (Hc & Ho & Hf) Hw. unfold healthy.
  destruct Hw as [t q Hq Hlt|i t r w Hi Hr|obj q Hq|e q Hq|obj q Hq Hlt
                 |i obj r w Hi Hr|r q Hq]; obs; try done.
  - destruct (Hc (world s)) as (obj & w' & Heq). rewrite Heq in Hr.
    injection Hr as <- <-. obs. split_and!; try done.
    apply Forall_app. split; [done|]. by apply Forall_singleton.
  - rewrite Hq in Ho. apply Forall_cons in Ho as [_ ?]. done.
  - rewrite Hq in Ho. by apply Forall_cons in Ho as [[] ?].
Qed.

Lemma stable_accounted held : stable (@accounted Obj World held).
Proof.
  apply stable_wstep. intros s s' (Hn & Hp) Hw. unfold accounted.
  destruct Hw as [t q Hq Hlt|i t r w Hi Hr|obj q Hq|e q Hq|obj q Hq Hlt
                 |i obj r w Hi Hr|r q Hq]; obs.
  - rewrite Hq in Hn. simpl in Hn. split; [lia|done].
  - apply length_delete_Some in Hi. destruct r; obs.
    + split; [lia|]. rewrite Hp. solve_Permutation.
    + split; [lia|done].
  - rewrite Hq in Hp. obs. split; [done|]. rewrite Hp. solve_Permutation.
  - rewrite Hq in Hp. obs. done.
  - rewrite Hq in Hp. split; [done|]. rewrite Hp. solve_Permutation.
  - split; [done|]. rewrite Hp.
    rewrite (delete_Permutation _ _ _ Hi) at 1. solve_Permutation.
  - done.
Qed.

Lemma stable_staffed : stable (@staffed Obj World).
Proof.
  apply stable_wstep. intros s s' Hs Hw. unfold staffed in *.
  by destruct Hw; obs.
Qed.

(** ** What the operations of the calling thread do *)

Lemma prim_step_inv {X} (e : prim Obj X) s x s' :
  prim_step e s = Value x s' →
  match e in prim _ X return X → Prop with
  | create_pool_apply_async => λ _,
      _state (_create_pool s) = RUN ∧
      s' = set_create_pool
             (mkPool (_processes (_create_pool s)) RUN
                (_inqueue (_create_pool s) ++ [tt])
                (_running (_create_pool s)) (_outqueue (_create_pool s)))
             [Ev_submit_create] s
  | destroy_pool_apply_async obj => λ _,
      _state (_destroy_pool s) = RUN ∧
      s' = set_destroy_pool
             (mkPool (_processes (_destroy_pool s)) RUN
                (_inqueue (_destroy_pool s) ++ [obj])
                (_running (_destroy_pool s)) (_outqueue (_destroy_pool s)))
             [Ev_submit_destroy obj] s
  | pool_close CreatePool => λ _,
      s' = set_create_pool (Pool.close (_create_pool s)) [Ev_close CreatePool] s
  | pool_close DestroyPool => λ _,
      s' = set_destroy_pool (Pool.close (_destroy_pool s))
             [Ev_close DestroyPool] s
  | pool_join CreatePool => λ _,
      _state (_create_pool s) ≠ RUN ∧ Pool.jobs (_create_pool s) = 0 ∧
      s' = set_create_pool (_create_pool s) [Ev_join CreatePool] s
  | pool_join DestroyPool => λ _,
      _state (_destroy_pool s) ≠ RUN ∧ Pool.jobs (_destroy_pool s) = 0 ∧
      s' = set_destroy_pool (_destroy_pool s) [Ev_join DestroyPool] s
  | queue_get => λ obj,
      ∃ q, _queue s = obj :: q ∧ s' = set_queue q [Ev_queue_get obj] s
  | queue_qsize => λ n,
      n = length (_queue s) ∧ s' = set_queue (_queue s) [Ev_qsize n] s
  end x.
Proof.
  destruct e as [|obj|[]|[]| |]; unfold prim_step, Pool.apply_async, Pool.join.
  - destruct (_state (_create_pool s)); by intros [= <- <-].
  - destruct (_state (_destroy_pool s)); by intros [= <- <-].
  - by intros [= <- <-].
  - by intros [= <- <-].
  - destruct (_state (_create_pool s)); [done|..]; case_decide; by intros [= <- <-].
  - destruct (_state (_destroy_pool s)); [done|..]; case_decide; by intros [= <- <-].
  - destruct (_queue s) as [|obj q]; [done|]. intros [= <- <-]. by exists q.
  - by intros [= <- <-].
Qed.

Ltac call_inv H :=
  apply prim_step_inv in H; simpl in H;
  repeat match type of H with
         | ∃ _, _ => destruct H as [? H]
         | _ ∧ _ => destruct H as [? H]
         end;
  subst.

Lemma prim_healthy {X} (e : prim Obj X) :
  triple (@healthy Obj World) (Call e) (λ _, healthy).
Proof.
  apply triple_call; [apply stable_healthy|intros _; apply stable_healthy|].
  intros s x s' H Hs. unfold healthy in *.
  destruct e as [|obj|[]|[]| |]; call_inv Hs; obs; try done.
  unfold Pool.close. by destruct (_state (_create_pool s)).
Qed.

Lemma stable_tracked n held : stable (@tracked Obj World n held).
Proof.
  apply stable_and; [apply stable_accounted|].
  apply stable_wstep. intros s s' Hs Hw. by destruct Hw; obs.
Qed.

Lemma precalc_tracked n held :
  triple (@tracked Obj World n held) _precalc (λ _, tracked (S n) held).
Proof.
  apply triple_call; [apply stable_tracked|intros _; apply stable_tracked|].
  intros s x s' [[Hn Hp] <-] Hs. call_inv Hs. unfold tracked, accounted. obs.
  split_and!; [lia|done|lia].
Qed.

Lemma queue_get_tracked n held :
  triple (@tracked Obj World n held) (Call queue_get)
         (λ obj, tracked n (obj :: held)).
Proof.
  apply triple_call; [apply stable_tracked|intros ?; apply stable_tracked|].
  intros s x s' [[Hn Hp] <-] Hs. call_inv Hs.
  unfold tracked, accounted. obs. split_and!; [done| |done].
  rewrite Hp. match goal with H : _queue s = _ |- _ => rewrite H end.
  solve_Permutation.
Qed.

Lemma destroy_tracked n obj held :
  triple (@tracked Obj World n (obj :: held)) (destroy obj)
         (λ _, tracked n held).
Proof.
  apply triple_call; [apply stable_tracked|intros ?; apply stable_tracked|].
  intros s x s' [[Hn Hp] <-] Hs. call_inv Hs.
  unfold tracked, accounted. obs. split_and!; [done| |done].
  rewrite Hp. solve_Permutation.
Qed.

Lemma quiet_tracked {X} (e : prim Obj X) n held :
  match e with
  | pool_close _ | pool_join _ | queue_qsize => True
  | _ => False
  end →
  triple (@tracked Obj World n held) (Call e) (λ _, tracked n held).
Proof.
  intros He.
  apply triple_call; [apply stable_tracked|intros ?; apply stable_tracked|].
  intros s x s' [[Hn Hp] <-] Hs. unfold tracked, accounted.
  destruct e as [|obj|[]|[]| |]; try done; call_inv Hs; obs; try done.
  - unfold Pool.close. by destruct (_state (_create_pool s)).
  - unfold Pool.close. by destruct (_state (_destroy_pool s)).
Qed.

Lemma triple_and {A} (P1 P2 : state Obj World → Prop) (p : prog Obj A)
    (Q1 Q2 : A → state Obj World → Prop) :
  triple P1 p Q1 → triple P2 p Q2 →
  triple (λ s, P1 s ∧ P2 s) p (λ a s, Q1 a s ∧ Q2 a s).
Proof. intros H1 H2 s a s' [??] He. split; [by eapply H1 | by eapply H2]. Qed.

Lemma triple_for_in_count {A} (I : nat → state Obj World → Prop) (l : list A)
    (body : A → prog Obj unit) :
  (∀ i, stable (I i)) → (∀ i x, triple (I i) (body x) (λ _, I (S i))) →
  ∀ n, triple (I n) (for_in l body) (λ _, I (n + length l)).
Proof.
  intros HI Hb. induction l as [|x l IH]; intros n; simpl.
  - intros s [] s' Hs [_ H]%exec_ret_inv. rewrite Nat.add_0_r.
    by eapply stable_rtc.
  - eapply triple_bind; [apply Hb|]. intros ?.
    replace (n + S (length l)) with (S n + length l) by lia. apply IH.
Qed.

Lemma stable_drained : stable (@drained Obj World).
Proof.
  apply stable_wstep. intros s s' Hs Hw. unfold drained, Pool.jobs in *.
  destruct Hw as [t q Hq Hlt|i t r w Hi Hr|obj q Hq|e q Hq|obj q Hq Hlt
                 |i obj r w Hi Hr|r q Hq]; obs; try done.
  - rewrite Hq in Hs. simpl in Hs. lia.
  - apply lookup_lt_Some in Hi. lia.
  - rewrite Hq in Hs. simpl in Hs. lia.
  - rewrite Hq in Hs. simpl in Hs. lia.
Qed.

Lemma stable_emptied : stable (@emptied Obj World).
Proof.
  apply stable_wstep. intros s s' [Hs Hq'] Hw.
  split; [by eapply stable_use; [apply stable_drained|..]|].
  unfold drained, Pool.jobs in *.
  destruct Hw as [t q Hq Hlt|i t r w Hi Hr|obj q Hq|e q Hq|obj q Hq Hlt
                 |i obj r w Hi Hr|r q Hq]; obs; try done.
  rewrite Hq in Hs. simpl in Hs. lia.
Qed.

Lemma stable_quiescent : stable (@quiescent Obj World).
Proof.
  apply stable_wstep. intros s s' [Hs Hd] Hw.
  split; [by eapply stable_use; [apply stable_emptied|..]|].
  unfold Pool.jobs in *.
  destruct Hw as [t q Hq Hlt|i t r w Hi Hr|obj q Hq|e q Hq|obj q Hq Hlt
                 |i obj r w Hi Hr|r q Hq]; obs; try done.
  - rewrite Hq in Hd. simpl in Hd. lia.
  - apply lookup_lt_Some in Hi. lia.
  - rewrite Hq in Hd. simpl in Hd. lia.
Qed.

(** A property that the pool threads and every operation of the calling
    thread preserve holds after every program. *)
Lemma triple_any (P : state Obj World → Prop) :
  stable P → (∀ X (e : prim Obj X), triple P (Call e) (λ _, P)) →
  ∀ A (p : prog Obj A), triple P p (λ _, P).
Proof.
  intros HP He A p. induction p as [A a|A B p IHp k IHk|X e|c IHc b IHb].
  - intros s a' s' Hs [_ H]%exec_ret_inv. by eapply stable_rtc.
  - eapply triple_bind; [apply IHp|]. intros a. apply IHk.
  - apply He.
  - apply (triple_while P P); [done|done| |done].
    eapply triple_conseq; [| |apply IHc]; [done|]. by intros [].
Qed.

Lemma get_tracked n held :
  triple (@tracked Obj World n held) get (λ obj, tracked (S n) (obj :: held)).
Proof.
  eapply triple_bind; [apply precalc_tracked|].
  intros ?. apply queue_get_tracked.
Qed.

Lemma cycles_tracked k n :
  triple (@tracked Obj World n []) (cycles k) (λ _, tracked (n + k) []).
Proof.
  unfold cycles.
  pose proof (triple_for_in_count (λ i, @tracked Obj World i [])
                (seq 0 k) (λ _, Bind get destroy)) as H.
  rewrite length_seq in H. apply H.
  - intros i. apply stable_tracked.
  - intros i _. eapply triple_bind; [apply get_tracked|].
    intros obj. apply destroy_tracked.
Qed.

Lemma seed_tracked k n :
  triple (@tracked Obj World n []) (for_in (seq 0 k) (λ _, _precalc))
         (λ _, tracked (n + k) []).
Proof.
  pose proof (triple_for_in_count (λ i, @tracked Obj World i [])
                (seq 0 k) (λ _, _precalc)) as H.
  rewrite length_seq in H. apply H.
  - intros i. apply stable_tracked.
  - intros i _. apply precalc_tracked.
Qed.

Lemma stop_tracked n :
  triple (@tracked Obj World n []) stop (λ _, tracked n []).
Proof.
  unfold stop.
  eapply triple_bind; [by apply quiet_tracked|]. intros ?.
  eapply triple_bind; [by apply quiet_tracked|]. intros ?.
  eapply triple_bind.
  { apply (triple_while (tracked n []) (tracked n []) _ _ (λ _, tracked n []));
      [apply stable_tracked..| |].
    - eapply triple_bind; [by apply quiet_tracked|]. intros v.
      eapply triple_conseq; [| |apply triple_ret, stable_tracked]; [done|].
      intros b s [_ H]. by destruct b.
    - eapply triple_bind; [apply queue_get_tracked|].
      intros obj. apply destroy_tracked. }
  intros ?.
  eapply triple_bind; [by apply quiet_tracked|]. intros ?.
  by apply quiet_tracked.
Qed.

Lemma stop_quiescent :
  triple (λ _ : state Obj World, True) stop (λ _, quiescent).
Proof.
  unfold stop.
  eapply triple_bind with (R := λ _ _, True).
  { apply triple_call; [apply stable_const|intros; apply stable_const|done]. }
  intros ?. eapply triple_bind with (R := λ _, drained).
  { apply triple_call; [apply stable_const|intros; apply stable_drained|].
    intros s x s' _ Hs. call_inv Hs. unfold drained. by obs. }
  intros ?. eapply triple_bind with (R := λ _, emptied).
  { apply (triple_while drained drained);
      [apply stable_drained|apply stable_emptied| |].
    - eapply triple_bind with (R := λ n s, drained s ∧ (n = 0 → _queue s = [])).
      + apply triple_call; [apply stable_drained| |].
        * intros n. apply stable_wstep. intros s s' [Hd Hq] Hw.
          split; [by eapply stable_use; [apply stable_drained|..]|].
          intros Hn. eapply (stable_use emptied s s'); [apply stable_emptied| |done].
          split; [done|by apply Hq].
        * intros s x s' Hd Hs. call_inv Hs. unfold drained in *. obs.
          split; [done|]. by intros ?%nil_length_inv.
      + intros n s v s' [Hd Hq] [-> H]%exec_ret_inv.
        destruct n as [|n]; simpl.
        * eapply (stable_rtc emptied); [apply stable_emptied| |done].
          split; [done|by apply Hq].
        * by eapply (stable_rtc drained); [apply stable_drained|..].
    - eapply triple_bind with (R := λ _, drained).
      + apply triple_call; [apply stable_drained|intros; apply stable_drained|].
        intros s x s' Hd Hs. call_inv Hs. unfold drained in *. by obs.
      + intros obj.
        apply triple_call; [apply stable_drained|intros; apply stable_drained|].
        intros s x s' Hd Hs. call_inv Hs. unfold drained in *. by obs. }
  intros ?. eapply triple_bind with (R := λ _, emptied).
  { apply triple_call; [apply stable_emptied|intros; apply stable_emptied|].
    intros s x s' Hd Hs. call_inv Hs. unfold emptied, drained in *. by obs. }
  intros ?.
  apply triple_call; [apply stable_emptied|intros; apply stable_quiescent|].
  intros s x s' Hd Hs. call_inv Hs. unfold quiescent, emptied, drained in *.
  by obs.
Qed.

(** ** Rules for [live] *)

Lemma live_now {A} (P : state Obj World → Prop) (p : prog Obj A) s :
  live P p → P s → ∃ a s', exec p s a s'.
Proof. intros H Hs. by apply (H [] s p s). Qed.

Lemma live_conseq {A} (P P' : state Obj World → Prop) (p : prog Obj A) :
  (∀ s, P s → P' s) → live P' p → live P p.
Proof. intros HP H sched s q s' Hs Hrun. eapply H; [by apply HP|done]. Qed.

Lemma live_ret {A} (P : state Obj World → Prop) (a : A) : live P (Ret a).
Proof.
  intros sched s q s' _ [-> _]%run_ret. exists a, s'. apply exec_ret.
Qed.

Lemma live_call {X} (P : state Obj World → Prop) (e : prim Obj X) :
  stable P →
  (∀ s, P s → ∃ s1 x s2, rtc bg s s1 ∧ prim_step e s1 = Value x s2) →
  live P (Call e).
Proof.
  intros HP He sched s q s' Hs
    [[-> H]|(s1 & x & s2 & _ & _ & _ & ->)]%run_call.
  - destruct (He s') as (s1 & x & s2 & H1 & H2); [by eapply stable_rtc|].
    exists x, s2. eapply exec_bg; [done|]. by apply exec_call.
  - exists x, s'. apply exec_ret.
Qed.

Lemma live_bind {A B} (P : state Obj World → Prop) (p : prog Obj A)
    (R : A → state Obj World → Prop) (k : A → prog Obj B) :
  triple P p R → live P p → (∀ a, live (R a) (k a)) → live P (Bind p k).
Proof.
  intros Ht Hp Hk sched s q s' Hs
    [(p' & -> & H)|(sc1 & sc2 & p1 & a & s1 & -> & H1 & H2 & H3)]%run_bind.
  - destruct (Hp _ _ _ _ Hs H) as (a & s1 & sc & q1 & H1 & Hq1).
    assert (R a s1) as Ha.
    { eapply Ht; [done|]. exists (sched ++ sc), q1. by rewrite run_app, H. }
    destruct (live_now _ _ _ (Hk a) Ha) as (b & s2 & He).
    exists b, s2. eapply exec_bind; [|done]. by exists sc, q1.
  - eapply Hk; [|done]. eapply Ht; [done|]. by exists sc1, p1.
Qed.

Lemma live_while (I Pb : nat → state Obj World → Prop) (c : prog Obj bool)
    (b : prog Obj unit) :
  (∀ n, stable (I n)) →
  (∀ n, triple (I n) c (λ v s, v = true → Pb n s)) →
  (∀ n, live (I n) c) →
  (∀ n, triple (Pb n) b (λ _ s, ∃ m, m < n ∧ I m s)) →
  (∀ n, live (Pb n) b) →
  ∀ n, live (I n) (While c b).
Proof.
  intros HI Hc Hlc Hb Hlb n.
  induction n as [n IH] using lt_wf_ind.
  assert (live (I n) (unfold_while c b)) as Hu.
  { eapply live_bind; [apply Hc|apply Hlc|].
    intros [|]; [|apply live_ret].
    eapply live_bind; [|eapply live_conseq; [|apply Hlb]|].
    - eapply triple_conseq; [| |apply Hb]; [naive_solver|]. intros a s H. exact H.
    - naive_solver.
    - intros ? sched s q s' (m & Hm & Hs). by apply (IH m). }
  intros sched s q s' Hs [[-> H]|(sc1 & sc2 & s1 & -> & H1 & H2)]%run_while.
  - destruct (live_now _ _ s' Hu) as (a & s2 & He); [by eapply stable_rtc|].
    exists a, s2. by apply exec_while.
  - eapply Hu; [|done]. by eapply stable_rtc.
Qed.

(** ** The Running state *)

Lemma stable_pools sc sd : stable (@pools Obj World sc sd).
Proof.
  apply stable_wstep. intros s s' (Hs & Hc & Hd) Hw.
  split; [by eapply stable_use; [apply stable_staffed|..]|].
  by destruct Hw; obs.
Qed.

Lemma stable_running n : stable (@running Obj World n).
Proof.
  apply stable_wstep. intros s s' (Hh & Hn & Hp) Hw.
  split; [by eapply stable_use; [apply stable_healthy|..]|].
  split; [|by eapply stable_use; [apply stable_pools|..]].
  destruct Hh as (_ & Ho & _). unfold supply, Pool.jobs in *.
  destruct Hw as [t q Hq Hlt|i t r w Hi Hr|obj q Hq|e q Hq|obj q Hq Hlt
                 |i obj r w Hi Hr|r q Hq]; obs; try done.
  - rewrite Hq in Hn. simpl in Hn. lia.
  - apply length_delete_Some in Hi. lia.
  - rewrite Hq in Hn. simpl in Hn. lia.
  - rewrite Hq in Ho. by apply Forall_cons in Ho as [[] _].
Qed.

Lemma precalc_running n :
  triple (@running Obj World n) _precalc (λ _, running (S n)).
Proof.
  apply triple_call; [apply stable_running|intros; apply stable_running|].
  intros s x s' (Hh & Hn & Hs & Hc & Hd) Hstep. call_inv Hstep.
  unfold running, healthy, pools, staffed, supply, Pool.jobs in *. obs.
  destruct_and!. split_and!; try done. lia.
Qed.

Lemma queue_get_running n :
  triple (@running Obj World (S n)) (Call queue_get) (λ _, running n).
Proof.
  apply triple_call; [apply stable_running|intros; apply stable_running|].
  intros s x s' (Hh & Hn & Hs & Hc & Hd) Hstep. call_inv Hstep.
  unfold running, healthy, pools, staffed, supply, Pool.jobs in *. obs.
  destruct_and!. split_and!; try done.
  match goal with H : _queue s = _ |- _ => rewrite H in Hn end. simpl in Hn. lia.
Qed.

Lemma destroy_running n obj :
  triple (@running Obj World n) (destroy obj) (λ _, running n).
Proof.
  apply triple_call; [apply stable_running|intros; apply stable_running|].
  intros s x s' (Hh & Hn & Hs & Hc & Hd) Hstep. call_inv Hstep.
  unfold running, healthy, pools, staffed, supply, Pool.jobs in *. obs.
  destruct_and!. by split_and!.
Qed.

Lemma get_running n : triple (@running Obj World n) get (λ _, running n).
Proof.
  eapply triple_bind; [apply precalc_running|].
  intros ?. apply queue_get_running.
Qed.

Lemma api_running n A (p : prog Obj A) :
  api A p → triple (@running Obj World n) p (λ _, running n).
Proof.
  induction 1 as [A a|A B p k _ IHp _ IHk| |obj].
  - intros s a' s' Hs [_ H]%exec_ret_inv.
    by eapply stable_rtc; [apply stable_running|..].
  - eapply triple_bind; [apply IHp|]. intros a. apply IHk.
  - apply get_running.
  - apply destroy_running.
Qed.

(** ** The pools finish their work *)

Lemma create_progress s :
  staffed s → ¬ drained s →
  ∃ s1, wstep s s1 ∧
        Pool.backlog (_create_pool s1) < Pool.backlog (_create_pool s).
Proof.
  intros [Hs _] Hd. unfold drained, Pool.jobs, Pool.backlog in *.
  destruct (_outqueue (_create_pool s)) as [|[obj|e] oq] eqn:Ho.
  - destruct (_running (_create_pool s)) as [|t rn] eqn:Hr.
    + destruct (_inqueue (_create_pool s)) as [|t iq] eqn:Hi; [done|].
      eexists. split; [by eapply ws_take_create; [|rewrite Hr; simpl; lia]|].
      obs. rewrite Hr, Ho. simpl. lia.
    + destruct (_constructor s (world s)) as [r w] eqn:Hc.
      eexists. split; [by eapply (ws_run_create s 0); [rewrite Hr|]|].
      obs. rewrite Hr, Ho. simpl. lia.
  - eexists. split; [by eapply ws_put|]. obs. lia.
  - eexists. split; [by eapply ws_drop|]. obs. lia.
Qed.

Lemma destroy_progress s :
  staffed s → Pool.jobs (_destroy_pool s) ≠ 0 →
  ∃ s1, wstep s s1 ∧
        Pool.backlog (_destroy_pool s1) < Pool.backlog (_destroy_pool s).
Proof.
  intros [_ Hs] Hd. unfold Pool.jobs, Pool.backlog in *.
  destruct (_outqueue (_destroy_pool s)) as [|r oq] eqn:Ho.
  - destruct (_running (_destroy_pool s)) as [|t rn] eqn:Hr.
    + destruct (_inqueue (_destroy_pool s)) as [|t iq] eqn:Hi; [done|].
      eexists. split; [by eapply ws_take_destroy; [|rewrite Hr; simpl; lia]|].
      obs. rewrite Hr, Ho. simpl. lia.
    + destruct (_destructor s t (world s)) as [r w] eqn:Hc.
      eexists. split; [by eapply (ws_run_destroy s 0); [rewrite Hr|]|].
      obs. rewrite Hr, Ho. simpl. lia.
  - eexists. split; [by eapply ws_handle_destroy|]. obs. lia.
Qed.

Lemma drain_create s : staffed s → ∃ s', rtc bg s s' ∧ drained s'.
Proof.
  remember (Pool.backlog (_create_pool s)) as m eqn:Hm.
  revert s Hm. induction m as [m IH] using lt_wf_ind. intros s -> Hs.
  destruct (decide (Pool.jobs (_create_pool s) = 0)) as [Hd|Hd];
    [by exists s|].
  destruct (create_progress s Hs Hd) as (s1 & Hw & Hlt).
  destruct (IH _ Hlt s1 eq_refl) as (s' & H1 & H2).
  { by eapply stable_use; [apply stable_staffed|..]. }
  exists s'. split; [|done]. eapply rtc_l; [by apply wstep_bg|done].
Qed.

Lemma drain_destroy s :
  staffed s → ∃ s', rtc bg s s' ∧ Pool.jobs (_destroy_pool s') = 0.
Proof.
  remember (Pool.backlog (_destroy_pool s)) as m eqn:Hm.
  revert s Hm. induction m as [m IH] using lt_wf_ind. intros s -> Hs.
  destruct (decide (Pool.jobs (_destroy_pool s) = 0)) as [Hd|Hd];
    [by exists s|].
  destruct (destroy_progress s Hs Hd) as (s1 & Hw & Hlt).
  destruct (IH _ Hlt s1 eq_refl) as (s' & H1 & H2).
  { by eapply stable_use; [apply stable_staffed|..]. }
  exists s'. split; [|done]. eapply rtc_l; [by apply wstep_bg|done].
Qed.

(** ** The methods return *)

Lemma live_precalc n : live (@running Obj World n) _precalc.
Proof.
  apply live_call; [apply stable_running|].
  intros s (_ & _ & _ & Hc & _). eexists s, tt, _. split; [done|].
  unfold prim_step, Pool.apply_async. by rewrite Hc.
Qed.

Lemma live_queue_get n : live (@running Obj World (S n)) (Call queue_get).
Proof.
  apply live_call; [apply stable_running|].
  intros s Hs. destruct (drain_create s) as (s1 & H1 & Hd); [apply Hs|].
  pose proof (stable_rtc _ _ _ (stable_running (S n)) Hs H1) as (_ & Hn & _).
  unfold supply in Hn. rewrite Hd in Hn.
  destruct (_queue s1) as [|obj q] eqn:Hq; [done|].
  eexists s1, obj, _. split; [done|]. unfold prim_step. by rewrite Hq.
Qed.

Lemma live_destroy n obj : live (@running Obj World n) (destroy obj).
Proof.
  apply live_call; [apply stable_running|].
  intros s (_ & _ & _ & _ & Hd). eexists s, tt, _. split; [done|].
  unfold prim_step, Pool.apply_async. by rewrite Hd.
Qed.

Lemma live_get n : live (@running Obj World n) get.
Proof.
  eapply live_bind; [apply precalc_running|apply live_precalc|].
  intros ?. apply live_queue_get.
Qed.

Lemma api_live n A (p : prog Obj A) : api A p → live (@running Obj World n) p.
Proof.
  induction 1 as [A a|A B p k Hp IHp _ IHk| |obj].
  - apply live_ret.
  - eapply live_bind; [by apply api_running|apply IHp|]. intros a. apply IHk.
  - apply live_get.
  - apply live_destroy.
Qed.

Lemma stable_draining n : stable (@draining Obj World n).
Proof.
  apply stable_wstep. intros s s' (Hp & Hd & Hn) Hw.
  split; [by eapply stable_use; [apply stable_pools|..]|].
  split; [by eapply stable_use; [apply stable_drained|..]|].
  unfold drained, Pool.jobs in *.
  destruct Hw as [t q Hq Hlt|i t r w Hi Hr|obj q Hq|e q Hq|obj q Hq Hlt
                 |i obj r w Hi Hr|r q Hq]; obs; try done.
  rewrite Hq in Hd. simpl in Hd. lia.
Qed.

Lemma qsize_draining n :
  triple (@draining Obj World n)
    (Bind (Call queue_qsize) (λ k, Ret (negb (k =? 0))))
    (λ v s, draining n s ∧ v = negb (n =? 0)).
Proof.
  eapply triple_bind with (R := λ k s, draining n s ∧ k = n).
  - apply triple_call; [apply stable_draining| |].
    + intros k. apply stable_and; [apply stable_draining|apply stable_const].
    + intros s k s' (Hp & Hd & Hn) Hs. call_inv Hs.
      unfold draining, pools, staffed, drained in *. obs.
      destruct_and!. by split_and!.
  - intros k s v s' [Hs ->] [-> H]%exec_ret_inv.
    split; [|done]. by eapply stable_rtc; [apply stable_draining|..].
Qed.

Lemma body_draining n :
  triple (@draining Obj World (S n))
    (Bind (Call queue_get) destroy)
    (λ _, draining n).
Proof.
  eapply triple_bind with (R := λ _, draining n).
  - apply triple_call; [apply stable_draining|intros; apply stable_draining|].
    intros s k s' (Hp & Hd & Hn) Hs. call_inv Hs.
    unfold draining, pools, staffed, drained in *. obs.
    match goal with H : _queue s = _ |- _ => rewrite H in Hn end.
    simpl in Hn. destruct_and!. split_and!; try done. lia.
  - intros obj.
    apply triple_call; [apply stable_draining|intros; apply stable_draining|].
    intros s k s' (Hp & Hd & Hn) Hs. call_inv Hs.
    unfold draining, pools, staffed, drained in *. obs.
    destruct_and!. by split_and!.
Qed.

Lemma live_loop n :
  live (@draining Obj World n)
    (While (Bind (Call queue_qsize) (λ k, Ret (negb (k =? 0))))
           (Bind (Call queue_get) destroy)).
Proof.
  apply (live_while draining (λ n s, draining n s ∧ n ≠ 0)).
  - apply stable_draining.
  - intros k. eapply triple_conseq; [| |apply qsize_draining]; [done|].
    intros v s [Hs ->] Hv. split; [done|]. by destruct k.
  - intros k. eapply live_bind with (R := λ _ _, True);
      [by intros s a s' _ _|apply live_call|intros; apply live_ret].
    + apply stable_draining.
    + intros s _. by eexists s, _, _.
  - intros [|k]; [by intros s a s' [_ ?]|].
    eapply triple_conseq; [| |apply body_draining]; [by intros s [? _]|].
    intros ? s Hs. exists k. split; [lia|done].
  - intros [|k]; [by intros sched s q s' [_ ?]|].
    eapply live_conseq with (P' := draining (S k)); [by intros s [? _]|].
    eapply live_bind; [|apply live_call|].
    + apply triple_call with (Q := λ _, draining k);
        [apply stable_draining|intros; apply stable_draining|].
      intros s x s' (Hp & Hd & Hn) Hs. call_inv Hs.
      unfold draining, pools, staffed, drained in *. obs.
      match goal with H : _queue s = _ |- _ => rewrite H in Hn end.
      simpl in Hn. destruct_and!. split_and!; try done. lia.
    + apply stable_draining.
    + intros s (_ & _ & Hn). destruct (_queue s) as [|obj q] eqn:Hq; [done|].
      eexists s, obj, _. split; [done|]. unfold prim_step. by rewrite Hq.
    + intros obj. apply live_call; [apply stable_draining|].
      intros s ((_ & _ & Hd) & _). eexists s, tt, _. split; [done|].
      unfold prim_step, Pool.apply_async. by rewrite Hd.
Qed.

Lemma stable_exists {I} (P : I → state Obj World → Prop) :
  (∀ i, stable (P i)) → stable (λ s, ∃ i, P i s).
Proof. intros HP s a s' [i Hs] Ha. exists i. by eapply HP. Qed.

Lemma live_exists {I A} (P : I → state Obj World → Prop) (p : prog Obj A) :
  (∀ i, live (P i) p) → live (λ s, ∃ i, P i s) p.
Proof. intros HP sched s q s' [i Hs] Hrun. by eapply HP. Qed.

Lemma triple_exists {I A} (P : I → state Obj World → Prop)
    (p : prog Obj A) (Q : A → state Obj World → Prop) :
  (∀ i, triple (P i) p Q) → triple (λ s, ∃ i, P i s) p Q.
Proof. intros HP s a s' [i Hs] He. by eapply HP. Qed.

Lemma live_for_in_count {A} (I : nat → state Obj World → Prop) (l : list A)
    (body : A → prog Obj unit) :
  (∀ i x, triple (I i) (body x) (λ _, I (S i))) →
  (∀ i x, live (I i) (body x)) →
  ∀ n, live (I n) (for_in l body).
Proof.
  intros Ht Hl. induction l as [|x l IH]; intros n; simpl; [apply live_ret|].
  eapply live_bind; [apply Ht|apply Hl|]. intros ?. apply IH.
Qed.

Lemma api_for_in {A} (l : list A) (body : A → prog Obj unit) :
  (∀ x, api unit (body x)) → api unit (for_in l body).
Proof.
  intros Hb. induction l as [|x l IH]; simpl; [apply api_ret|].
  apply api_bind; [apply Hb|]. by intros _.
Qed.

Lemma api_cycles k : api unit (cycles k : prog Obj unit).
Proof.
  apply api_for_in. intros _. apply api_bind; [apply api_get|].
  intros obj. apply api_destroy.
Qed.

Lemma close_create_pools sd :
  triple (@pools Obj World RUN sd) (Call (pool_close CreatePool))
         (λ _, pools CLOSE sd).
Proof.
  apply triple_call; [apply stable_pools|intros; apply stable_pools|].
  intros s x s' (Hs & Hc & Hd) Hstep. call_inv Hstep.
  unfold pools, staffed, Pool.close in *. rewrite Hc. obs.
  destruct_and!. by split_and!.
Qed.

Lemma close_destroy_pools sc :
  triple (@pools Obj World sc RUN) (Call (pool_close DestroyPool))
         (λ _, pools sc CLOSE).
Proof.
  apply triple_call; [apply stable_pools|intros; apply stable_pools|].
  intros s x s' (Hs & Hc & Hd) Hstep. call_inv Hstep.
  unfold pools, staffed, Pool.close in *. rewrite Hd. obs.
  destruct_and!. by split_and!.
Qed.

Lemma join_create_draining :
  triple (@pools Obj World CLOSE RUN) (Call (pool_join CreatePool))
         (λ _ s, ∃ n, draining n s).
Proof.
  apply triple_call; [apply stable_pools| |].
  { intros _. apply stable_exists, stable_draining. }
  intros s x s' (Hs & Hc & Hd) Hstep. call_inv Hstep.
  exists (length (_queue s)).
  unfold draining, drained, pools, staffed in *. obs.
  destruct_and!. by split_and!.
Qed.

Lemma loop_pools n :
  triple (@draining Obj World n)
    (While (Bind (Call queue_qsize) (λ k, Ret (negb (k =? 0))))
           (Bind (Call queue_get) destroy))
    (λ _, pools CLOSE RUN).
Proof.
  eapply triple_conseq with (P' := λ s, ∃ k, draining k s)
                            (Q' := λ _ s, ∃ k, draining k s).
  { intros s Hs. by exists n. }
  { by intros ? s [k [? _]]. }
  apply (triple_while _ (λ s, ∃ k, draining (S k) s)).
  - apply stable_exists, stable_draining.
  - apply stable_exists, stable_draining.
  - apply triple_exists. intros k.
    eapply triple_conseq; [| |apply qsize_draining]; [done|].
    intros v s [Hs ->]. destruct k as [|k]; simpl; by eexists.
  - apply triple_exists. intros k.
    eapply triple_conseq; [| |apply body_draining]; [done|].
    intros ? s Hs. by exists k.
Qed.

Lemma live_stop : live (@pools Obj World RUN RUN) stop.
Proof.
  unfold stop.
  eapply live_bind; [apply close_create_pools| |intros ?].
  { apply live_call; [apply stable_pools|]. intros s _. by eexists s, tt, _. }
  eapply live_bind; [apply join_create_draining| |intros ?].
  { apply live_call; [apply stable_pools|].
    intros s Hs. destruct (drain_create s) as (s1 & H1 & Hd); [apply Hs|].
    pose proof (stable_rtc _ _ _ (stable_pools _ _) Hs H1) as (_ & Hc & _).
    eexists s1, tt, _. split; [done|].
    unfold prim_step, Pool.join. rewrite Hc. by rewrite decide_True. }
  eapply live_bind; [apply triple_exists, loop_pools| |intros ?].
  { apply live_exists, live_loop. }
  eapply live_bind; [apply close_destroy_pools| |intros ?].
  { apply live_call; [apply stable_pools|]. intros s _. by eexists s, tt, _. }
  apply live_call; [apply stable_pools|].
  intros s Hs. destruct (drain_destroy s) as (s1 & H1 & Hd); [apply Hs|].
  pose proof (stable_rtc _ _ _ (stable_pools _ _) Hs H1) as (_ & _ & Hc).
  eexists s1, tt, _. split; [done|].
  unfold prim_step, Pool.join. rewrite Hc. by rewrite decide_True.
Qed.

(** ** A life of an instance *)

Lemma create_inv (constructor : @Constructor Obj World) destructor nc nd w
    seed s0 :
  create constructor destructor nc nd w = Returns (seed, s0) →
  1 ≤ default 2 nc ∧ 1 ≤ default 1 nd ∧
  seed = for_in (seq 0 (default 2 nc)) (λ _, _precalc) ∧
  s0 = __init__ constructor (default default_destructor destructor)
         (mkPool (default 2 nc) RUN [] [] [])
         (mkPool (default 1 nd) RUN [] [] []) w.
Proof.
  unfold create, Pool.new. repeat case_decide; try done.
  intros [= <- <-]. split_and!; try done; lia.
Qed.

Lemma init_running (constructor : @Constructor Obj World) destructor n m w :
  nonfailing constructor → 1 ≤ n → 1 ≤ m →
  running 0 (__init__ constructor destructor (mkPool n RUN [] [] [])
               (mkPool m RUN [] [] []) w).
Proof. intros Hc Hn Hm. by repeat split. Qed.

Lemma init_tracked (constructor : @Constructor Obj World) destructor n m w :
  tracked 0 [] (__init__ constructor destructor (mkPool n RUN [] [] [])
                  (mkPool m RUN [] [] []) w).
Proof. by repeat split. Qed.

Lemma seed_running k n :
  triple (@running Obj World n) (for_in (seq 0 k) (λ _, _precalc))
         (λ _, running (n + k)).
Proof.
  pose proof (triple_for_in_count (@running Obj World)
                (seq 0 k) (λ _, _precalc)) as H.
  rewrite length_seq in H. apply H.
  - apply stable_running.
  - intros i _. apply precalc_running.
Qed.

Lemma live_seed k n :
  live (@running Obj World n) (for_in (seq 0 k) (λ _, _precalc)).
Proof.
  apply (live_for_in_count (@running Obj World)).
  - intros i _. apply precalc_running.
  - intros i _. apply live_precalc.
Qed.

Lemma live_client n k :
  live (@running Obj World 0) (client (for_in (seq 0 n) (λ _, _precalc)) k).
Proof.
  unfold client.
  eapply live_bind; [apply seed_running|apply live_seed|intros ?].
  eapply live_bind; [apply api_running, api_cycles|apply api_live, api_cycles|].
  intros ?. eapply live_conseq; [|apply live_stop]. by intros s (_ & _ & ?).
Qed.

Lemma client_tracked n k :
  triple (@tracked Obj World 0 [])
    (client (for_in (seq 0 n) (λ _, _precalc)) k)
    (λ _ s, tracked (n + k) [] s ∧ quiescent s).
Proof.
  unfold client.
  eapply triple_bind; [apply (seed_tracked n 0)|]. intros ?.
  eapply triple_bind; [apply cycles_tracked|]. intros ?.
  eapply triple_conseq with
    (P' := λ s, tracked (n + k) [] s ∧ True)
    (Q' := λ _ s, tracked (n + k) [] s ∧ quiescent s); [done|done|].
  apply triple_and; [apply stop_tracked|apply stop_quiescent].
Qed.

Lemma quiescent_tracked n (s : state Obj World) :
  tracked n [] s → quiescent s →
  length (constructed (trace s)) + length (failed (trace s)) = n ∧
  constructed (trace s) ≡ₚ destroyed (trace s).
Proof.
  intros [[Hn Hp] <-] [[Hd Hq] Hj]. unfold drained, Pool.jobs in *.
  destruct (_inqueue (_create_pool s)); [|simpl in *; lia].
  destruct (_running (_create_pool s)); [|simpl in *; lia].
  destruct (_outqueue (_create_pool s)); [|simpl in *; lia].
  destruct (_inqueue (_destroy_pool s)); [|simpl in *; lia].
  destruct (_running (_destroy_pool s)); [|simpl in *; lia].
  rewrite Hq in Hp. simpl in *. split; [lia|done].
Qed.

(** C1: an instance created with creation width [n] that serves [k] cycles
    of [get] followed by [destroy] and is then stopped has, when [stop]
    returns, made [n + k] calls of the constructor, and the objects destroyed
    are the objects constructed, each one once.  With a constructor that
    does not raise these are exactly [n + k] objects, and whatever the
    threads have done so far, the program can still run until [stop]
    returns. *)
Theorem stop_destroys_every_object_once
    (constructor : @Constructor Obj World) destructor n nd k w seed s0 :
  create constructor destructor (Some n) nd w = Returns (seed, s0) →
  (∀ s', exec (client seed k) s0 tt s' →
     length (constructed (trace s')) + length (failed (trace s')) = n + k ∧
     constructed (trace s') ≡ₚ destroyed (trace s')) ∧
  (nonfailing constructor →
   (∀ s', exec (client seed k) s0 tt s' →
      length (constructed (trace s')) = n + k) ∧
   (∀ sched q s', run sched (client seed k, s0) = Some (q, s') →
      ∃ s'', exec q s' tt s'')).
Proof.
  intros (Hn & Hm & -> & ->)%create_inv. simpl in *.
  assert (∀ s', exec (client (for_in (seq 0 n) (λ _, _precalc)) k)
                  (__init__ constructor
                     (default default_destructor destructor)
                     (mkPool n RUN [] [] [])
                     (mkPool (default 1 nd) RUN [] [] []) w) tt s' →
            length (constructed (trace s')) + length (failed (trace s'))
              = n + k ∧
            constructed (trace s') ≡ₚ destroyed (trace s')) as Hall.
  { intros s' He.
    destruct (client_tracked n k _ _ _ (init_tracked _ _ _ _ _) He)
      as (Ht & Hq).
    by apply quiescent_tracked. }
  split; [done|]. intros Hc.
  pose proof (init_running _ (default default_destructor destructor)
                _ _ w Hc Hn Hm) as H0.
  split.
  - intros s' He. destruct (Hall s' He) as [Hlen _].
    destruct (triple_any _ stable_healthy (@prim_healthy) _ _ _ _ _
                (proj1 H0) He) as (_ & _ & Hf).
    rewrite Hf in Hlen. simpl in Hlen. lia.
  - intros sched q s' Hrun.
    destruct (live_client n k sched _ q s' H0 Hrun) as ([] & s'' & He).
    by exists s''.
Qed.

(** ** Histories *)

Lemma puts_app (tr1 tr2 : list (event Obj)) :
  puts (tr1 ++ tr2) = puts tr1 ++ puts tr2.
Proof. apply omap_app. Qed.

Lemma calls_app (tr1 tr2 : list (event Obj)) :
  calls (tr1 ++ tr2) = calls tr1 + calls tr2.
Proof. unfold calls. by rewrite List.filter_app, length_app. Qed.

Lemma calls_one (e : event Obj) :
  calls [e] = match e with Ev_constructor _ => 1 | _ => 0 end.
Proof. by destruct e. Qed.

Lemma creations_app (tr1 tr2 : list (event Obj)) :
  creations (tr1 ++ tr2) = creations tr1 ++ creations tr2.
Proof. apply List.filter_app. Qed.

Ltac hist :=
  rewrite ?puts_app, ?calls_app, ?creations_app, ?calls_one in *; obs.

Lemma stable_history (s0 : state Obj World) m got : stable (history s0 m got).
Proof.
  apply stable_wstep. intros s s' (t & Ht & Hm & Hq & Hn) Hw.
  destruct Hw as [u q Hu Hlt|i u r w Hi Hr|obj q Hu|e q Hu|obj q Hu Hlt
                 |i obj r w Hi Hr|r q Hu].
  - exists t. hist. rewrite Hu in Hn. simpl in Hn. split_and!; try done. lia.
  - exists (t ++ [Ev_constructor r]). hist. apply length_delete_Some in Hi.
    rewrite Ht, <-(assoc_L (++)). split_and!; try done. lia.
  - exists (t ++ [Ev_queue_put obj]). hist.
    rewrite Ht, <-(assoc_L (++)). split_and!; try done.
    by rewrite !(assoc_L (++)), Hq.
  - exists t. by hist.
  - exists t. by hist.
  - exists (t ++ [Ev_destructor obj r]). hist.
    rewrite Ht, <-(assoc_L (++)). by split_and!.
  - exists t. by hist.
Qed.

Lemma prim_history (s0 : state Obj World) m got {X} (e : prim Obj X) :
  triple (history s0 m got) (Call e)
    (λ x, history s0 (m ++ [event_of e x]) (got ++ got_of e x)).
Proof.
  apply triple_call; [apply stable_history|intros; apply stable_history|].
  intros s x s' (t & Ht & Hm & Hq & Hn) Hs.
  exists (t ++ [event_of e x]).
  destruct e as [|obj|[]|[]| |]; call_inv Hs; hist;
    rewrite Ht, <-(assoc_L (++)); split_and!; try done; try lia;
    rewrite ?app_nil_r; try done.
  - unfold Pool.close. destruct (_state (_create_pool s)); simpl; lia.
  - match goal with H : _queue s = _ |- _ => rewrite H in Hq end.
    by rewrite Hq, <-(assoc_L (++)).
Qed.

Lemma history_refl (s : state Obj World) : history s [] [] s.
Proof. exists []. by rewrite !app_nil_r. Qed.

Lemma submitted_main (t : list (event Obj)) :
  submitted (main_events t) = submitted t.
Proof.
  unfold submitted, main_events.
  induction t as [|e t IH]; [done|]. destruct e; simpl; auto.
Qed.

Lemma submitted_destroy_main (t : list (event Obj)) :
  submitted_destroy (main_events t) = submitted_destroy t.
Proof.
  unfold submitted_destroy, main_events.
  induction t as [|e t IH]; [done|]. destruct e; simpl; auto. by f_equal.
Qed.

(** ** get *)

Lemma get_history (s0 : state Obj World) :
  triple (history s0 [] []) get
    (λ obj, history s0 [Ev_submit_create; Ev_queue_get obj] [obj]).
Proof.
  eapply triple_bind; [apply prim_history|]. intros ?.
  eapply triple_conseq; [| |apply prim_history]; done.
Qed.

(** C3: [get] first submits one construction task, whatever the queue
    holds, and then takes one object off the queue and returns it: these
    are the two operations of the calling thread, in this order, and one
    task is submitted.  In the Running state [get] can always return. *)
Theorem get_submits_then_pops (s : state Obj World) :
  (_state (_create_pool s) = RUN →
   main_step get s =
     Stepped (Bind (Ret tt) (λ _, Call queue_get))
       (set_create_pool
          (mkPool (_processes (_create_pool s)) RUN
             (_inqueue (_create_pool s) ++ [tt]) (_running (_create_pool s))
             (_outqueue (_create_pool s)))
          [Ev_submit_create] s)) ∧
  (∀ obj s', exec get s obj s' →
     ∃ t, trace s' = trace s ++ t ∧
          main_events t = [Ev_submit_create; Ev_queue_get obj] ∧
          submitted t = 1 ∧
          _queue s ++ puts t = obj :: _queue s') ∧
  (∀ n, running n s → ∃ obj s', exec get s obj s').
Proof.
  split_and!.
  - intros Hc. simpl. unfold Pool.apply_async. by rewrite Hc.
  - intros obj s' He.
    destruct (get_history s s obj s' (history_refl s) He)
      as (t & Ht & Hm & Hq & _).
    exists t. split_and!; try done.
    by rewrite <-submitted_main, Hm.
  - intros n Hs. by apply (live_now _ _ _ (live_get n)).
Qed.

(** ** destroy *)

(** C6: [destroy obj] is one operation of the calling thread: it appends one
    task carrying [obj] to the destruction pool and returns at once.  The
    destructor has not run then, and the queue, the creation pool and the
    world are as they were. *)
Theorem destroy_submits_and_returns (s : state Obj World) (obj : Obj) :
  _state (_destroy_pool s) = RUN →
  ∃ s1,
    main_step (destroy obj) s = Stepped (Ret tt) s1 ∧
    _inqueue (_destroy_pool s1) = _inqueue (_destroy_pool s) ++ [obj] ∧
    _running (_destroy_pool s1) = _running (_destroy_pool s) ∧
    _outqueue (_destroy_pool s1) = _outqueue (_destroy_pool s) ∧
    trace s1 = trace s ++ [Ev_submit_destroy obj] ∧
    destroyed (trace s1) = destroyed (trace s) ∧
    world s1 = world s ∧
    _queue s1 = _queue s ∧
    _create_pool s1 = _create_pool s ∧
    (∀ s', exec (destroy obj) s tt s' →
       ∃ t, trace s' = trace s ++ t ∧
            main_events t = [Ev_submit_destroy obj] ∧
            submitted_destroy t = [obj]).
Proof.
  intros Hd. eexists. split_and!.
  - simpl. unfold Pool.apply_async. by rewrite Hd.
  - done.
  - done.
  - done.
  - done.
  - by obs.
  - done.
  - done.
  - done.
  - intros s' He.
    destruct (prim_history s [] [] _ s tt s' (history_refl s) He)
      as (t & Ht & Hm & _).
    exists t. split_and!; try done. by rewrite <-submitted_destroy_main, Hm.
Qed.

(** ** stop *)

Lemma stable_holding n : stable (@holding Obj World n).
Proof.
  apply stable_wstep. intros s s' (Hd & Hn) Hw.
  split; [by eapply stable_use; [apply stable_drained|..]|].
  unfold drained, Pool.jobs in *.
  destruct Hw as [t q Hq Hlt|i t r w Hi Hr|obj q Hq|e q Hq|obj q Hq Hlt
                 |i obj r w Hi Hr|r q Hq]; obs; try done.
  rewrite Hq in Hd. simpl in Hd. lia.
Qed.

Lemma stable_emptying (s0 : state Obj World) ahead :
  stable (emptying s0 ahead).
Proof.
  apply stable_wstep.
  intros s s' (t1 & t2 & Ht & Hm1 & Hc & Hcr & Hd & Hev) Hw.
  assert (drained s') as Hd' by by eapply stable_use; [apply stable_drained|..].
  unfold drained, Pool.jobs in Hd.
  destruct Hw as [u q Hu Hlt|i u r w Hi Hr|obj q Hu|e q Hu|obj q Hu Hlt
                 |i obj r w Hi Hr|r q Hu].
  - rewrite Hu in Hd. simpl in Hd. lia.
  - apply lookup_lt_Some in Hi. lia.
  - rewrite Hu in Hd. simpl in Hd. lia.
  - rewrite Hu in Hd. simpl in Hd. lia.
  - exists t1, t2. by hist.
  - exists t1, (t2 ++ [Ev_destructor obj r]). hist.
    rewrite Ht, <-?app_assoc. by split_and!.
  - exists t1, t2. by hist.
Qed.

Lemma emptying_ext (s0 s : state Obj World) ahead ahead' :
  emptying s0 ahead s → ahead (_queue s) = ahead' (_queue s) →
  emptying s0 ahead' s.
Proof.
  intros (t1 & t2 & Ht & Hm1 & Hc & Hcr & Hd & Hev) He.
  exists t1, t2. rewrite <-He. by split_and!.
Qed.

Lemma join_create_emptying (s0 : state Obj World) :
  triple (history s0 [Ev_close CreatePool] []) (Call (pool_join CreatePool))
         (λ _, emptying s0 loop_events).
Proof.
  apply triple_call; [apply stable_history|intros; apply stable_emptying|].
  intros s x s' (t & Ht & Hm & Hq & Hn) Hs. call_inv Hs.
  rewrite <-submitted_main, Hm in Hn.
  match goal with H : Pool.jobs _ = 0 |- _ => rename H into Hj end.
  exists t, []. unfold drained. hist. pose proof Hj as Hj'.
  unfold Pool.jobs in Hj'.
  rewrite Ht, <-?app_assoc. split_and!; try done; [lia|].
  by rewrite Hq.
Qed.

Lemma qsize_emptying (s0 : state Obj World) :
  triple (emptying s0 loop_events) (Call queue_qsize)
         (λ n s, emptying s0 (λ q, tail (loop_events q)) s ∧ holding n s).
Proof.
  apply triple_call; [apply stable_emptying| |].
  { intros n. apply stable_and; [apply stable_emptying|apply stable_holding]. }
  intros s n s' (t1 & t2 & Ht & Hm1 & Hc & Hcr & Hd & Hev) Hs. call_inv Hs.
  split; [|by split].
  exists t1, (t2 ++ [Ev_qsize (length (_queue s))]). unfold drained in *. hist.
  rewrite Ht, <-?app_assoc. split_and!; try done.
  rewrite <-Hev, <-?app_assoc. f_equal.
  unfold loop_events. by destruct (_queue s).
Qed.

Lemma queue_get_emptying (s0 : state Obj World) n :
  triple (λ s, emptying s0 (λ q, tail (loop_events q)) s ∧ holding (S n) s)
         (Call queue_get)
         (λ obj, emptying s0 (λ q, Ev_submit_destroy obj :: loop_events q)).
Proof.
  apply triple_call; [|intros; apply stable_emptying|].
  { apply stable_and; [apply stable_emptying|apply stable_holding]. }
  intros s obj s' [(t1 & t2 & Ht & Hm1 & Hc & Hcr & Hd & Hev) _] Hs.
  call_inv Hs. match goal with H : _queue s = _ |- _ => rename H into Hq end.
  exists t1, (t2 ++ [Ev_queue_get obj]). unfold drained in *. hist.
  rewrite Ht, <-?app_assoc. rewrite Hq in Hev. by split_and!.
Qed.

Lemma submit_destroy_emptying (s0 : state Obj World) obj :
  triple (emptying s0 (λ q, Ev_submit_destroy obj :: loop_events q))
         (Call (destroy_pool_apply_async obj))
         (λ _, emptying s0 loop_events).
Proof.
  apply triple_call; [apply stable_emptying|intros; apply stable_emptying|].
  intros s x s' (t1 & t2 & Ht & Hm1 & Hc & Hcr & Hd & Hev) Hs. call_inv Hs.
  exists t1, (t2 ++ [Ev_submit_destroy obj]). unfold drained in *. hist.
  rewrite Ht, <-?app_assoc.
  split_and!; try done; by rewrite <-Hev, <-?app_assoc.
Qed.

Lemma holding_emptied (s : state Obj World) : holding 0 s → emptied s.
Proof. intros [Hd Hn]. split; [done|]. by apply nil_length_inv. Qed.

Lemma loop_emptying (s0 : state Obj World) :
  triple (emptying s0 loop_events)
    (While (Bind (Call queue_qsize) (λ n, Ret (negb (n =? 0))))
           (Bind (Call queue_get) destroy))
    (λ _ s, emptying s0 (λ _, [Ev_close DestroyPool; Ev_join DestroyPool]) s ∧
            emptied s).
Proof.
  apply (triple_while _
           (λ s, ∃ n, emptying s0 (λ q, tail (loop_events q)) s ∧
                      holding (S n) s)).
  - apply stable_emptying.
  - apply stable_and; [apply stable_emptying|apply stable_emptied].
  - eapply triple_bind; [apply qsize_emptying|].
    intros n s v s' [He Hh] [-> H]%exec_ret_inv.
    assert (emptying s0 (λ q, tail (loop_events q)) s' ∧ holding n s')
      as [He' Hh'].
    { eapply (stable_rtc (λ s, emptying s0 (λ q, tail (loop_events q)) s ∧
                              holding n s)); [|by split|done].
      apply stable_and; [apply stable_emptying|apply stable_holding]. }
    destruct n as [|n]; simpl; [|by exists n].
    apply holding_emptied in Hh' as Hq. split; [|done].
    eapply emptying_ext; [done|]. destruct Hq as [_ ->]. done.
  - apply triple_exists. intros n.
    eapply triple_bind; [apply queue_get_emptying|].
    intros obj. apply submit_destroy_emptying.
Qed.

Lemma close_destroy_emptying (s0 : state Obj World) :
  triple (λ s, emptying s0 (λ _, [Ev_close DestroyPool; Ev_join DestroyPool]) s
               ∧ emptied s)
         (Call (pool_close DestroyPool))
         (λ _ s, emptying s0 (λ _, [Ev_join DestroyPool]) s ∧ emptied s).
Proof.
  apply triple_call.
  { apply stable_and; [apply stable_emptying|apply stable_emptied]. }
  { intros. apply stable_and; [apply stable_emptying|apply stable_emptied]. }
  intros s x s' [(t1 & t2 & Ht & Hm1 & Hc & Hcr & Hd & Hev) [_ Hq]] Hs.
  call_inv Hs. split; [|by split].
  exists t1, (t2 ++ [Ev_close DestroyPool]). unfold drained in *. hist.
  rewrite Ht, <-?app_assoc.
  split_and!; try done; by rewrite <-Hev, <-?app_assoc.
Qed.

Lemma quiescent_wstep (s s' : state Obj World) :
  quiescent s → wstep s s' → False.
Proof.
  intros [[Hd _] Hj] Hw. unfold drained, Pool.jobs in *.
  destruct Hw as [u q Hu Hlt|i u r w Hi Hr|obj q Hu|e q Hu|obj q Hu Hlt
                 |i obj r w Hi Hr|r q Hu];
    try (rewrite Hu in *; simpl in *; lia);
    apply lookup_lt_Some in Hi; lia.
Qed.

Lemma stable_stopped (s0 : state Obj World) : stable (stopped s0).
Proof.
  apply stable_wstep.
  intros s s' (t1 & t2 & _ & _ & _ & _ & _ & Hq) Hw.
  by destruct (quiescent_wstep s s').
Qed.

Lemma join_destroy_stopped (s0 : state Obj World) :
  triple (λ s, emptying s0 (λ _, [Ev_join DestroyPool]) s ∧ emptied s)
         (Call (pool_join DestroyPool)) (λ _, stopped s0).
Proof.
  apply triple_call; [|intros; apply stable_stopped|].
  { apply stable_and; [apply stable_emptying|apply stable_emptied]. }
  intros s x s' [(t1 & t2 & Ht & Hm1 & Hc & Hcr & Hd & Hev) [_ Hq]] Hs.
  call_inv Hs. exists t1, t2. unfold quiescent, emptied, drained in *. hist.
  rewrite Ht, <-?app_assoc. split_and!; try done.
  unfold closing_events in Hev.
  change [Ev_qsize 0; Ev_close DestroyPool; Ev_join DestroyPool]
    with ([Ev_qsize 0; Ev_close DestroyPool] ++ [@Ev_join Obj DestroyPool])
    in Hev.
  rewrite app_assoc in Hev. by apply app_inj_tail in Hev as [? _].
Qed.

Lemma stop_stopped (s0 : state Obj World) :
  triple (history s0 [] []) stop (λ _, stopped s0).
Proof.
  unfold stop.
  eapply triple_bind; [apply prim_history|]. intros ?.
  eapply triple_bind; [apply join_create_emptying|]. intros ?.
  eapply triple_bind; [apply loop_emptying|]. intros ?.
  eapply triple_bind; [apply close_destroy_emptying|]. intros ?.
  apply join_destroy_stopped.
Qed.

Lemma stable_destroying (s0 : state Obj World) : stable (destroying s0).
Proof.
  apply stable_wstep. intros s s' (t & Ht & Hp) Hw.
  destruct Hw as [u q Hu Hlt|i u r w Hi Hr|obj q Hu|e q Hu|obj q Hu Hlt
                 |i obj r w Hi Hr|r q Hu].
  - exists t. by hist.
  - exists (t ++ [Ev_constructor r]). hist. rewrite Ht, <-?app_assoc. by split.
  - exists (t ++ [Ev_queue_put obj]). hist. rewrite Ht, <-?app_assoc. by split.
  - exists t. by hist.
  - exists t. hist. split; [done|]. rewrite <-Hp, Hu. solve_Permutation.
  - exists (t ++ [Ev_destructor obj r]). hist. rewrite Ht, <-?app_assoc.
    split; [done|]. rewrite <-Hp.
    rewrite (delete_Permutation (_running (_destroy_pool s)) _ _ Hi) at 2.
    solve_Permutation.
  - exists t. by hist.
Qed.

Lemma prim_destroying (s0 : state Obj World) {X} (e : prim Obj X) :
  triple (destroying s0) (Call e) (λ _, destroying s0).
Proof.
  apply triple_call; [apply stable_destroying|intros; apply stable_destroying|].
  intros s x s' (t & Ht & Hp) Hs.
  exists (t ++ [event_of e x]).
  destruct e as [|obj|[]|[]| |]; call_inv Hs; hist;
    rewrite Ht, <-?app_assoc; (split; [done|]); try done.
  - trans ((_inqueue (_destroy_pool s) ++ _running (_destroy_pool s) ++
            destroyed t) ++ [obj]); [solve_Permutation|].
    rewrite Hp. solve_Permutation.
  - unfold Pool.close. by destruct (_state (_destroy_pool s)).
Qed.

Lemma destroying_refl (s : state Obj World) : destroying s s.
Proof. exists []. by rewrite !app_nil_r. Qed.

Lemma submitted_destroy_drain (objs : list Obj) :
  submitted_destroy (drain_events objs) = objs.
Proof. induction objs as [|obj objs IH]; simpl; by f_equal. Qed.

(** C2: the shutdown protocol of [stop].  Between the start of [stop] and
    its return the calling thread performs, in this order: [close] and
    [join] of the creation pool; for every object then in the queue (those
    there at the start and those the callback has put meanwhile) a size
    test, a [get] and the submission of its destruction, with no wait in
    between; a last size test; [close] and [join] of the destruction pool.
    Every construction task pending at the start is run before the first
    [join] returns and nothing is constructed or queued after it; every
    destruction pending or submitted is run before the second [join], which
    is the last event.  Then nothing is left in the pools or the queue.
    From the Running state [stop] can always run to its return. *)
Theorem stop_shutdown_protocol (s : state Obj World) :
  (∀ s', exec stop s tt s' →
     ∃ t1 t2,
       trace s' = trace s ++ t1 ++ [Ev_join CreatePool] ++ t2 ++
                  [Ev_join DestroyPool] ∧
       main_events t1 = [Ev_close CreatePool] ∧
       calls t1 = length (_inqueue (_create_pool s)) +
                  length (_running (_create_pool s)) ∧
       creations t2 = [] ∧
       main_events t2 =
         drain_events (_queue s ++ puts t1) ++
         [Ev_qsize 0; Ev_close DestroyPool] ∧
       destroyed (t1 ++ t2) ≡ₚ
         _inqueue (_destroy_pool s) ++ _running (_destroy_pool s) ++
         _queue s ++ puts t1 ∧
       quiescent s') ∧
  (pools RUN RUN s →
   ∀ sched q s1, run sched (stop, s) = Some (q, s1) → ∃ s', exec q s1 tt s').
Proof.
  split.
  - intros s' He.
    destruct (stop_stopped s s tt s' (history_refl s) He)
      as (t1 & t2 & Ht & Hm1 & Hc & Hcr & Hm2 & Hq).
    exists t1, t2. split_and!; try done.
    destruct (triple_any _ (stable_destroying s) (@prim_destroying s) _ stop
                s tt s' (destroying_refl s) He) as (t & Ht' & Hp).
    rewrite Ht' in Ht. apply app_inv_head in Ht. subst t.
    rewrite <-(submitted_destroy_main (t1 ++ _)) in Hp.
    rewrite !main_events_app, Hm1, Hm2 in Hp.
    rewrite !destroyed_app in Hp.
    rewrite !submitted_destroy_app, submitted_destroy_drain in Hp.
    destruct Hq as [_ Hj]. unfold Pool.jobs in Hj.
    destruct (_inqueue (_destroy_pool s')); [|simpl in Hj; lia].
    destruct (_running (_destroy_pool s')); [|simpl in Hj; lia].
    simpl in Hp. rewrite !app_nil_r in Hp. by rewrite destroyed_app, Hp.
  - intros Hs sched q s1 Hrun.
    destruct (live_stop sched s q s1 Hs Hrun) as ([] & s' & He). by exists s'.
Qed.

(** ** The Running state keeps its supply *)

Lemma raised_app {R} (l1 l2 : list (outcome R)) :
  raised (l1 ++ l2) = raised l1 ++ raised l2.
Proof. apply omap_app. Qed.

Lemma stable_balanced n : stable (@balanced Obj World n).
Proof.
  apply stable_wstep. intros s s' Hn Hw. unfold balanced, supply, Pool.jobs in *.
  destruct Hw as [t q Hq Hlt|i t r w Hi Hr|obj q Hq|e q Hq|obj q Hq Hlt
                 |i obj r w Hi Hr|r q Hq]; obs; try done.
  - rewrite Hq in Hn. simpl in Hn. lia.
  - apply length_delete_Some in Hi. rewrite raised_app, length_app.
    destruct r; simpl; lia.
  - rewrite Hq in Hn. simpl in Hn. lia.
  - rewrite Hq in Hn. simpl in Hn. lia.
Qed.

Lemma precalc_balanced n :
  triple (@balanced Obj World n) _precalc (λ _, balanced (S n)).
Proof.
  apply triple_call; [apply stable_balanced|intros; apply stable_balanced|].
  intros s x s' Hn Hstep. call_inv Hstep.
  unfold balanced, supply, Pool.jobs in *. obs. lia.
Qed.

Lemma queue_get_balanced n :
  triple (@balanced Obj World (S n)) (Call queue_get) (λ _, balanced n).
Proof.
  apply triple_call; [apply stable_balanced|intros; apply stable_balanced|].
  intros s x s' Hn Hstep. call_inv Hstep.
  unfold balanced, supply, Pool.jobs in *. obs.
  match goal with H : _queue s = _ |- _ => rewrite H in Hn end. simpl in Hn. lia.
Qed.

Lemma destroy_balanced n obj :
  triple (@balanced Obj World n) (destroy obj) (λ _, balanced n).
Proof.
  apply triple_call; [apply stable_balanced|intros; apply stable_balanced|].
  intros s x s' Hn Hstep. call_inv Hstep.
  unfold balanced, supply, Pool.jobs in *. by obs.
Qed.

Lemma api_balanced n A (p : prog Obj A) :
  api A p → triple (@balanced Obj World n) p (λ _, balanced n).
Proof.
  induction 1 as [A a|A B p k _ IHp _ IHk| |obj].
  - intros s a' s' Hs [_ H]%exec_ret_inv.
    by eapply stable_rtc; [apply stable_balanced|..].
  - eapply triple_bind; [apply IHp|]. intros a. apply IHk.
  - eapply triple_bind; [apply precalc_balanced|].
    intros ?. apply queue_get_balanced.
  - apply destroy_balanced.
Qed.

Lemma seed_balanced k n :
  triple (@balanced Obj World n) (for_in (seq 0 k) (λ _, _precalc))
         (λ _, balanced (n + k)).
Proof.
  pose proof (triple_for_in_count (@balanced Obj World)
                (seq 0 k) (λ _, _precalc)) as H.
  rewrite length_seq in H. apply H.
  - apply stable_balanced.
  - intros i _. apply precalc_balanced.
Qed.

(** C4: in the Running state the construction tasks not completed plus the
    objects in the queue are as many as the creation pool is wide, less the
    constructions that have failed and been dropped: with a constructor that
    does not raise, exactly as many.  The seeding loop of [create]
    establishes this; the pool threads preserve it; [get] preserves it, its
    submission adding the one that its pop takes; so it holds wherever code
    that uses the instance through [get] and [destroy] has got to. *)
Theorem supply_is_creation_width
    (constructor : @Constructor Obj World) destructor n nd w seed s0 :
  create constructor destructor (Some n) nd w = Returns (seed, s0) →
  (∀ A (p : prog Obj A) a s', api A p →
     exec (Bind seed (λ _, p)) s0 a s' →
     supply s' + length (failed (trace s')) =
     n + length (raised (_outqueue (_create_pool s')))) ∧
  (nonfailing constructor →
   (∀ s, exec seed s0 tt s → running n s) ∧
   (∀ s a s', running n s → worker_step a s = Some s' → running n s') ∧
   (∀ s s', running n s → exec _precalc s tt s' → running (S n) s') ∧
   (∀ s obj s', running (S n) s → exec (Call queue_get) s obj s' →
      running n s') ∧
   (∀ s obj s', running n s → exec get s obj s' → running n s') ∧
   (∀ A (p : prog Obj A) a s', api A p →
      exec (Bind seed (λ _, p)) s0 a s' → supply s' = n)).
Proof.
  intros (Hn & Hm & -> & ->)%create_inv. simpl in *. split.
  { intros A p a s' Hp He.
    refine (triple_bind (balanced 0) _ (λ _, balanced n) (λ _, p)
              (λ _, balanced n) (seed_balanced n 0) _ _ a s' _ He);
      [intros ?; by apply api_balanced|by cbv]. }
  intros Hc.
  pose proof (init_running _ (default default_destructor destructor)
                _ _ w Hc Hn Hm) as H0.
  split_and!.
  - intros s He. by apply (seed_running n 0 _ _ _ H0 He).
  - intros s a s' Hs Ha. by eapply stable_running.
  - intros s s' Hs He. by eapply precalc_running.
  - intros s obj s' Hs He. by eapply queue_get_running.
  - intros s obj s' Hs He. by eapply get_running.
  - intros A p a s' Hp He.
    eapply (triple_bind (running 0) _ (λ _, running n) _
              (λ _ s, supply s = n)); [apply (seed_running n 0)| |done|done].
    intros ?. eapply triple_conseq; [| |by apply (api_running n)]; [done|].
    by intros ? s (_ & ? & _).
Qed.

(** ** create *)

Lemma run_seed i k (s : state Obj World) :
  _state (_create_pool s) = RUN →
  run (replicate (2 * k) Main) (for_in (seq i k) (λ _, _precalc), s) =
  Some (Ret tt,
        mkState (_constructor s) (_destructor s)
          (mkPool (_processes (_create_pool s)) RUN
             (_inqueue (_create_pool s) ++ replicate k tt)
             (_running (_create_pool s)) (_outqueue (_create_pool s)))
          (_destroy_pool s) (_queue s) (world s)
          (trace s ++ replicate k Ev_submit_create)).
Proof.
  revert s i. induction k as [|k IH]; intros s i Hs.
  - simpl. rewrite !app_nil_r. destruct s as [? ? [] ? ? ? ?]. simpl in *.
    by subst.
  - replace (2 * S k) with (S (S (2 * k))) by lia.
    cbn [replicate seq for_in run sched_step fst snd main_step].
    unfold _precalc at 1. cbn [main_step prim_step]. unfold Pool.apply_async.
    rewrite Hs. cbn [mbind option_bind sched_step fst snd main_step].
    rewrite IH by done. simpl. by rewrite <-!app_assoc.
Qed.

Lemma seed_history k (s0 : state Obj World) n :
  triple (history s0 (replicate n Ev_submit_create) [])
         (for_in (seq 0 k) (λ _, _precalc))
         (λ _, history s0 (replicate (n + k) Ev_submit_create) []).
Proof.
  pose proof (triple_for_in_count
                (λ i, history s0 (replicate i Ev_submit_create) [])
                (seq 0 k) (λ _, _precalc)) as H.
  rewrite length_seq in H. apply H.
  - intros i. apply stable_history.
  - intros i _. eapply triple_conseq; [| |apply prim_history]; [done|].
    intros ? s Hs. simpl in *. by rewrite replicate_cons_app.
Qed.

Lemma submitted_replicate n :
  submitted (replicate n (@Ev_submit_create Obj)) = n.
Proof. unfold submitted. induction n; simpl; by f_equal. Qed.

Lemma precalc_pools sc sd :
  triple (@pools Obj World sc sd) _precalc (λ _, pools sc sd).
Proof.
  apply triple_call; [apply stable_pools|intros; apply stable_pools|].
  intros s x s' (Hs & Hc & Hd) Hstep. call_inv Hstep.
  unfold pools, staffed in *. obs. destruct_and!. by split_and!.
Qed.

(** C5: [create] with a creation width [n] and a destruction width [m] of
    at least one makes a creation pool of [n] workers, a destruction pool of
    [m] workers, both accepting tasks and empty, and an empty queue; what it
    then does is submit [n] construction tasks, which it can do one after
    the other without a pool thread moving, and nothing else; the instance
    is then in the Running state. *)
Theorem create_allocates_and_seeds
    (constructor : @Constructor Obj World) destructor n m w :
  1 ≤ n → 1 ≤ m →
  ∃ seed s0,
    create constructor destructor (Some n) (Some m) w = Returns (seed, s0) ∧
    _constructor s0 = constructor ∧
    _create_pool s0 = mkPool n RUN [] [] [] ∧
    _destroy_pool s0 = mkPool m RUN [] [] [] ∧
    _queue s0 = [] ∧ world s0 = w ∧ trace s0 = [] ∧
    (∃ s, run (replicate (2 * n) Main) (seed, s0) = Some (Ret tt, s) ∧
          _inqueue (_create_pool s) = replicate n tt ∧
          trace s = replicate n Ev_submit_create) ∧
    (∀ s, exec seed s0 tt s →
          main_events (trace s) = replicate n Ev_submit_create ∧
          submitted (trace s) = n ∧
          length (_inqueue (_create_pool s)) +
            length (_running (_create_pool s)) + calls (trace s) = n ∧
          pools RUN RUN s).
Proof.
  intros Hn Hm. unfold create, Pool.new. simpl.
  rewrite !decide_False by lia. eexists _, _. split_and!; try done.
  - eexists. split; [by apply run_seed|done].
  - intros s He.
    set (s0 := __init__ constructor (default default_destructor destructor)
                 (mkPool n RUN [] [] []) (mkPool m RUN [] [] []) w) in *.
    destruct (seed_history n s0 0 s0 tt s (history_refl s0) He)
      as (t & Ht & Hmain & _ & Hcount).
    simpl in Ht, Hcount. subst t.
    assert (submitted (trace s) = n) as Hsub.
    { by rewrite <-submitted_main, Hmain, submitted_replicate. }
    split_and!; try done; [lia|].
    eapply (triple_for_in (pools RUN RUN)); [apply stable_pools| | |done].
    + intros ?. apply precalc_pools.
    + by repeat split.
Qed.

(** C7, as the code has it: [create] has no check of its own on the
    creation width, and with a creation width of 0 it raises the
    [ValueError] of the [ThreadPool] constructor: there is no instance, and
    no [get] that could block.  That exception, for a width below 1, is the
    only one [create] ever raises. *)
Theorem create_rejects_zero_width
    (constructor : @Constructor Obj World) destructor nd w :
  create constructor destructor (Some 0) nd w =
    Raises (ValueError "Number of processes must be at least 1") ∧
  (∀ nc e, create constructor destructor nc nd w = Raises e →
     e = ValueError "Number of processes must be at least 1" ∧
     (default 2 nc < 1 ∨ default 1 nd < 1)).
Proof.
  split; [done|]. intros nc e. unfold create, Pool.new.
  repeat case_decide; intros [= <-]; split; try done; lia.
Qed.

(** C9: without the optional arguments the destructor is a function that
    does nothing and returns, the creation pool has 2 workers and the
    destruction pool has 1. *)
Theorem create_defaults (constructor : @Constructor Obj World) w :
  create constructor None None None w =
    create constructor (Some default_destructor) (Some 2) (Some 1) w ∧
  ∃ seed s0,
    create constructor None None None w = Returns (seed, s0) ∧
    _processes (_create_pool s0) = 2 ∧
    _processes (_destroy_pool s0) = 1 ∧
    (∀ obj w', _destructor s0 obj w' = (Returns tt, w')) ∧
    seed = for_in [0; 1] (λ _, _precalc).
Proof. split; [done|]. by eexists _, _. Qed.

(** ** A constructor that raises *)

Lemma worker_supply (a : action) (s s' : state Obj World) :
  worker_step a s = Some s' → supply s' ≤ supply s.
Proof.
  intros Hw%worker_step_wstep. unfold supply, Pool.jobs.
  destruct Hw as [u q Hu Hlt|i u r w Hi Hr|obj q Hu|e q Hu|obj q Hu Hlt
                 |i obj r w Hi Hr|r q Hu]; obs; try lia.
  - rewrite Hu. simpl. lia.
  - apply length_delete_Some in Hi. lia.
  - rewrite Hu. simpl. lia.
  - rewrite Hu. simpl. lia.
Qed.

(** C8: when the constructor raises in a creation task, the exception is
    kept as the result of the task and nothing is put on the queue; the
    result handler drops it, submits nothing and leaves the queue as it is,
    so the supply is one less; no step of a pool thread ever adds to the
    supply; the operations of the calling thread raise nothing but the
    [ValueError]s of the pools; and one [_precalc], as [get] does, adds one
    to the supply. *)
Theorem constructor_failure_is_swallowed (s : state Obj World) i t e w :
  _running (_create_pool s) !! i = Some t →
  _constructor s (world s) = (Raises e, w) →
  (∃ s1, worker_step (Run CreatePool i) s = Some s1 ∧
         _queue s1 = _queue s ∧
         _inqueue (_create_pool s1) = _inqueue (_create_pool s) ∧
         _outqueue (_create_pool s1) =
           _outqueue (_create_pool s) ++ [Raises e] ∧
         constructed (trace s1) = constructed (trace s) ∧
         main_events (trace s1) = main_events (trace s) ∧
         supply s1 = supply s) ∧
  (∀ s2 q, _outqueue (_create_pool s2) = Raises e :: q →
     ∃ s3, worker_step (Handle CreatePool) s2 = Some s3 ∧
           _queue s3 = _queue s2 ∧
           _inqueue (_create_pool s3) = _inqueue (_create_pool s2) ∧
           _running (_create_pool s3) = _running (_create_pool s2) ∧
           _outqueue (_create_pool s3) = q ∧
           trace s3 = trace s2 ∧
           S (supply s3) = supply s2) ∧
  (∀ a s2 s3, worker_step a s2 = Some s3 → supply s3 ≤ supply s2) ∧
  (∀ X (p : prim Obj X) s2 x, prim_step p s2 = Throw x →
     x = ValueError "Pool not running" ∨
     x = ValueError "Pool is still running") ∧
  (∀ s2 s3, prim_step create_pool_apply_async s2 = Value tt s3 →
     supply s3 = S (supply s2)).
Proof.
  intros Hi Hc. split_and!.
  - eexists. split.
    { unfold worker_step. rewrite Hi. simpl. by rewrite Hc. }
    unfold supply, Pool.jobs. obs. apply length_delete_Some in Hi.
    split_and!; try done. lia.
  - intros s2 q Hq. eexists. split.
    { unfold worker_step, Pool.handle. by rewrite Hq. }
    unfold supply, Pool.jobs. obs. rewrite Hq. simpl.
    split_and!; try done. lia.
  - intros a s2 s3. apply worker_supply.
  - intros X p s2 x.
    destruct p as [|obj|[]|[]| |]; unfold prim_step, Pool.apply_async, Pool.join.
    + destruct (_state (_create_pool s2)); intros [= <-]; by left.
    + destruct (_state (_destroy_pool s2)); intros [= <-]; by left.
    + done.
    + done.
    + destruct (_state (_create_pool s2)); [intros [= <-]; by right|..];
        by case_decide.
    + destruct (_state (_destroy_pool s2)); [intros [= <-]; by right|..];
        by case_decide.
    + by destruct (_queue s2).
    + done.
  - intros s2 s3 Hs. call_inv Hs. unfold supply, Pool.jobs. obs. lia.
Qed.

(** ** After stop *)

Lemma stable_closed : stable (@closed Obj World).
Proof.
  apply stable_wstep. intros s s' Hs Hw. unfold closed in *.
  by destruct Hw; obs.
Qed.

Lemma prim_closed {X} (e : prim Obj X) :
  triple (@closed Obj World) (Call e) (λ _, closed).
Proof.
  apply triple_call; [apply stable_closed|intros; apply stable_closed|].
  intros s x s' [Hc Hd] Hs. unfold closed in *.
  destruct e as [|obj|[]|[]| |]; call_inv Hs; obs; try done.
  - unfold Pool.close.
    destruct (_state (_create_pool s)) eqn:E; simpl; rewrite ?E; by split.
  - unfold Pool.close.
    destruct (_state (_destroy_pool s)) eqn:E; simpl; rewrite ?E; by split.
Qed.

Lemma stop_closed :
  triple (λ _ : state Obj World, True) stop (λ _, closed).
Proof.
  unfold stop.
  eapply triple_bind with (R := λ _ s, _state (_create_pool s) ≠ RUN).
  { apply triple_call; [apply stable_const| |].
    - intros _. apply stable_wstep. intros s s' Hs Hw. by destruct Hw; obs.
    - intros s x s' _ Hs. call_inv Hs. obs. unfold Pool.close.
      by destruct (_state (_create_pool s)) eqn:E; simpl; rewrite ?E. }
  assert (stable (λ s : state Obj World, _state (_create_pool s) ≠ RUN)) as Hst.
  { apply stable_wstep. intros s s' Hs Hw. by destruct Hw; obs. }
  assert (∀ X (e : prim Obj X),
            match e with create_pool_apply_async | pool_close CreatePool => False
                       | _ => True end →
            triple (λ s : state Obj World, _state (_create_pool s) ≠ RUN)
                   (Call e) (λ _ s, _state (_create_pool s) ≠ RUN)) as Hp.
  { intros X e He. apply triple_call; [done|done|].
    intros s x s' Hs Hstep.
    destruct e as [|obj|[]|[]| |]; try done; call_inv Hstep; by obs. }
  intros ?. eapply triple_bind; [by apply Hp|]. intros ?.
  eapply triple_bind.
  { apply (triple_while _ (λ s, _state (_create_pool s) ≠ RUN) _ _
             (λ _ s, _state (_create_pool s) ≠ RUN)); [done|done| |].
    - eapply triple_bind; [by apply Hp|]. intros n s v s' Hs [_ H]%exec_ret_inv.
      assert (_state (_create_pool s') ≠ RUN)
        by by eapply (stable_rtc (λ s, _state (_create_pool s) ≠ RUN)).
      by destruct v.
    - eapply triple_bind; [by apply Hp|]. intros obj. by apply Hp. }
  intros ?.
  eapply triple_bind with (R := λ _, closed).
  { apply triple_call; [done|intros; apply stable_closed|].
    intros s x s' Hs Hstep. call_inv Hstep. unfold closed. obs.
    unfold Pool.close. split; [done|].
    by destruct (_state (_destroy_pool s)) eqn:E; simpl; rewrite ?E. }
  intros ?. apply prim_closed.
Qed.

(** C10: once [stop] has returned, [get] and [destroy] raise the pool's
    [ValueError] at their first operation, the submission of a task: they
    neither wait nor submit anything, and they never return. *)
Theorem get_and_destroy_raise_after_stop (s s' : state Obj World) :
  exec stop s tt s' →
  main_step get s' = Raised (ValueError "Pool not running") ∧
  (∀ obj, main_step (destroy obj) s' = Raised (ValueError "Pool not running")) ∧
  (∀ obj s'', ¬ exec get s' obj s'') ∧
  (∀ obj s'', ¬ exec (destroy obj) s' tt s'').
Proof.
  intros He. pose proof (stop_closed s tt s' I He) as Hcl.
  split_and!.
  - destruct Hcl as [Hc _]. simpl. unfold Pool.apply_async.
    by destruct (_state (_create_pool s')).
  - intros obj. destruct Hcl as [_ Hd]. simpl. unfold Pool.apply_async.
    by destruct (_state (_destroy_pool s')).
  - intros obj s'' (a & s1 & (s2 & s3 & H1 & H2 & _)%exec_call_inv & _)%exec_bind_inv.
    pose proof (stable_rtc _ _ _ stable_closed Hcl H1) as [Hc _].
    by call_inv H2.
  - intros obj s'' (s2 & s3 & H1 & H2 & _)%exec_call_inv.
    pose proof (stable_rtc _ _ _ stable_closed Hcl H1) as [_ Hd].
    by call_inv H2.
Qed.

(** * Further properties *)

(** ** Several objects taken *)

Lemma get_history_from (s0 : state Obj World) m got :
  triple (history s0 m got) get
    (λ obj, history s0 (m ++ [Ev_submit_create; Ev_queue_get obj])
                       (got ++ [obj])).
Proof.
  eapply triple_bind; [apply prim_history|]. intros ?.
  eapply triple_conseq; [| |apply prim_history]; [done|].
  intros obj s. simpl. by rewrite app_nil_r, <-app_assoc.
Qed.

Lemma take_history (s0 : state Obj World) k m got :
  triple (history s0 m got) (take k)
    (λ objs s, ∃ m', history s0 (m ++ m') (got ++ objs) s ∧
                     submitted m' = k ∧ length objs = k).
Proof.
  revert m got. induction k as [|k IH]; intros m got; simpl.
  - intros s objs s' Hs [-> H]%exec_ret_inv. exists [].
    rewrite !app_nil_r. split; [|done].
    by eapply stable_rtc; [apply stable_history|..].
  - eapply triple_bind; [apply get_history_from|]. intros obj.
    eapply triple_bind; [apply IH|].
    intros objs s r s' (m' & Hs & Hm & Hl) [-> H]%exec_ret_inv.
    exists ([Ev_submit_create; Ev_queue_get obj] ++ m').
    rewrite <-!app_assoc in Hs. simpl in Hs.
    split; [by eapply stable_rtc; [apply stable_history|..]|].
    unfold submitted in *. simpl. by rewrite Hm, Hl.
Qed.

(** [k] calls of [get] in a row return the [k] oldest of the objects that
    were in the queue or have been put there meanwhile, in the order they
    were put, and leave the rest in the queue; [k] construction tasks have
    been submitted. *)
Theorem take_returns_oldest_first (s : state Obj World) k objs s' :
  exec (take k) s objs s' →
  ∃ t, trace s' = trace s ++ t ∧
       length objs = k ∧ submitted t = k ∧
       _queue s ++ puts t = objs ++ _queue s'.
Proof.
  intros He.
  destruct (take_history s k [] [] s objs s' (history_refl s) He)
    as (m' & (t & Ht & Hm & Hq & _) & Hsub & Hlen).
  exists t. split_and!; try done.
  by rewrite <-submitted_main, Hm.
Qed.

(** ** Objects that the caller keeps *)

Lemma tracked_perm n held held' (s : state Obj World) :
  held ≡ₚ held' → tracked n held s → tracked n held' s.
Proof.
  intros Hp [[Hn Hc] Hs]. split; [split|]; try done. by rewrite Hc, Hp.
Qed.

Lemma take_tracked k n held :
  triple (@tracked Obj World n held) (take k)
         (λ objs, tracked (n + k) (objs ++ held)).
Proof.
  revert n held. induction k as [|k IH]; intros n held; simpl.
  - intros s objs s' Hs [-> H]%exec_ret_inv. rewrite Nat.add_0_r.
    by eapply stable_rtc; [apply stable_tracked|..].
  - eapply triple_bind; [apply get_tracked|]. intros obj.
    eapply triple_bind; [apply IH|].
    intros objs s r s' Hs [-> H]%exec_ret_inv.
    replace (n + S k) with (S n + k) by lia.
    eapply stable_rtc; [apply stable_tracked| |done].
    eapply tracked_perm; [|done]. solve_Permutation.
Qed.

Lemma stop_tracked_held n held :
  triple (@tracked Obj World n held) stop (λ _, tracked n held).
Proof.
  unfold stop.
  eapply triple_bind; [by apply quiet_tracked|]. intros ?.
  eapply triple_bind; [by apply quiet_tracked|]. intros ?.
  eapply triple_bind.
  { apply (triple_while (tracked n held) (tracked n held) _ _
             (λ _, tracked n held)); [apply stable_tracked..| |].
    - eapply triple_bind; [by apply quiet_tracked|]. intros v.
      eapply triple_conseq; [| |apply triple_ret, stable_tracked]; [done|].
      intros b s [_ H]. by destruct b.
    - eapply triple_bind; [apply queue_get_tracked|].
      intros obj. apply destroy_tracked. }
  intros ?.
  eapply triple_bind; [by apply quiet_tracked|]. intros ?.
  by apply quiet_tracked.
Qed.

Lemma quiescent_tracked_held n held (s : state Obj World) :
  tracked n held s → quiescent s →
  length (constructed (trace s)) + length (failed (trace s)) = n ∧
  constructed (trace s) ≡ₚ held ++ destroyed (trace s).
Proof.
  intros [[Hn Hp] <-] [[Hd Hq] Hj]. unfold drained, Pool.jobs in *.
  destruct (_inqueue (_create_pool s)); [|simpl in *; lia].
  destruct (_running (_create_pool s)); [|simpl in *; lia].
  destruct (_outqueue (_create_pool s)); [|simpl in *; lia].
  destruct (_inqueue (_destroy_pool s)); [|simpl in *; lia].
  destruct (_running (_destroy_pool s)); [|simpl in *; lia].
  rewrite Hq in Hp. simpl in *. split; [lia|done].
Qed.

(** [stop] destroys the objects left in the queue and no object that [get]
    has handed out and that was not given to [destroy]: after [k] calls of
    [get] and [stop], the objects constructed are the [k] objects taken and
    the objects destroyed; with a constructor that does not raise, as many
    objects are destroyed as the creation pool is wide. *)
Theorem stop_spares_objects_taken
    (constructor : @Constructor Obj World) destructor n nd k w seed s0 :
  create constructor destructor (Some n) nd w = Returns (seed, s0) →
  ∀ objs s',
    exec (Bind seed (λ _, Bind (take k) (λ objs,
            Bind stop (λ _, Ret objs)))) s0 objs s' →
    length objs = k ∧
    constructed (trace s') ≡ₚ objs ++ destroyed (trace s') ∧
    length (constructed (trace s')) + length (failed (trace s')) = n + k ∧
    (nonfailing constructor → length (destroyed (trace s')) = n).
Proof.
  intros (Hn & Hm & -> & ->)%create_inv objs s' He. simpl in *.
  pose proof He as Hall.
  apply exec_bind_inv in He as ([] & s1 & He1 & He).
  apply exec_bind_inv in He as (objs1 & s2 & He2 & He).
  apply exec_bind_inv in He as ([] & s3 & He3 & He).
  apply exec_ret_inv in He as [-> Hbg].
  pose proof (seed_tracked n 0 _ _ _ (init_tracked _ _ _ _ _) He1) as Ht1.
  pose proof (take_tracked k _ _ _ _ _ Ht1 He2) as Ht2.
  simpl in Ht1, Ht2. rewrite app_nil_r in Ht2.
  pose proof (stop_tracked_held _ _ _ _ _ Ht2 He3) as Ht3.
  pose proof (stop_quiescent _ _ _ I He3) as Hq3.
  pose proof (stable_rtc _ _ _ (stable_tracked _ _) Ht3 Hbg) as Ht.
  pose proof (stable_rtc _ _ _ stable_quiescent Hq3 Hbg) as Hq.
  destruct (take_history s1 k [] [] s1 _ _ (history_refl s1) He2)
    as (_ & _ & _ & Hlen).
  destruct (quiescent_tracked_held _ _ _ Ht Hq) as [Hcount Hperm].
  split_and!; try done.
  intros Hc.
  assert (healthy (__init__ constructor
                     (default default_destructor destructor)
                     (mkPool n RUN [] [] [])
                     (mkPool (default 1 nd) RUN [] [] []) w)) as H0
    by by repeat split.
  destruct (triple_any _ stable_healthy (@prim_healthy) _ _ _ _ _ H0 Hall)
    as (_ & _ & Hf).
  rewrite Hf in Hcount. simpl in Hcount.
  apply Permutation_length in Hperm. rewrite length_app in Hperm. lia.
Qed.

(** ** A constructor that always raises *)

Lemma stable_barren : stable (@barren Obj World).
Proof.
  apply stable_wstep. intros s s' (Hc & Hq & Ho) Hw. unfold barren.
  destruct Hw as [t q Hu Hlt|i t r w Hi Hr|obj q Hu|e q Hu|obj q Hu Hlt
                 |i obj r w Hi Hr|r q Hu]; obs; try done.
  - destruct (Hc (world s)) as (e & w' & Heq). rewrite Heq in Hr.
    injection Hr as <- <-. by obs.
  - by rewrite Hu in Ho.
  - rewrite Hu in Ho. by obs.
Qed.

(** When the constructor raises on every call and no object is in the
    queue or on its way there, [get] never returns, whatever the pool
    threads do: every task it submits fails and the queue stays empty. *)
Theorem get_never_returns_without_objects (s : state Obj World) :
  barren s → ∀ obj s', ¬ exec get s obj s'.
Proof.
  intros Hs obj s' (a & s1 & H1 & H2)%exec_bind_inv.
  apply exec_call_inv in H1 as (s2 & s3 & Hbg1 & Hstep1 & Hbg2).
  apply exec_call_inv in H2 as (s4 & s5 & Hbg3 & Hstep2 & _).
  pose proof (stable_rtc _ _ _ stable_barren Hs Hbg1) as Hs2.
  assert (barren s3) as Hs3.
  { call_inv Hstep1. destruct Hs2 as (? & ? & ?). by repeat split. }
  pose proof (stable_rtc _ _ _ stable_barren Hs3 Hbg2) as Hs1.
  pose proof (stable_rtc _ _ _ stable_barren Hs1 Hbg3) as (_ & Hq & _).
  call_inv Hstep2. congruence.
Qed.

(** ** Destructions are carried out *)

Lemma prim_staffed {X} (e : prim Obj X) :
  triple (@staffed Obj World) (Call e) (λ _, staffed).
Proof.
  apply triple_call; [apply stable_staffed|intros _; apply stable_staffed|].
  intros s x s' H Hs. unfold staffed in *.
  destruct e as [|obj|[]|[]| |]; call_inv Hs; obs; try done.
  - unfold Pool.close. by destruct (_state (_create_pool s)).
  - unfold Pool.close. by destruct (_state (_destroy_pool s)).
Qed.

(** After [destroy obj] the destruction pool, if it has a worker, can run
    all its tasks with no further call: then the destructor has been called
    once for [obj] and once for every task that was waiting or running
    before, and on nothing else. *)
Theorem destroy_is_carried_out (s : state Obj World) obj s' :
  staffed s → exec (destroy obj) s tt s' →
  ∃ s'' t,
    rtc bg s' s'' ∧ trace s'' = trace s ++ t ∧
    main_events t = [Ev_submit_destroy obj] ∧
    Pool.jobs (_destroy_pool s'') = 0 ∧
    destroyed t ≡ₚ
      _inqueue (_destroy_pool s) ++ _running (_destroy_pool s) ++ [obj].
Proof.
  intros Hs He.
  pose proof (prim_staffed _ _ _ _ Hs He) as Hs'.
  destruct (drain_destroy s' Hs') as (s'' & Hbg & Hj).
  pose proof (prim_history s [] [] _ s tt s' (history_refl s) He) as Hh.
  pose proof (stable_rtc _ _ _ (stable_history _ _ _) Hh Hbg)
    as (t & Ht & Hm & _).
  pose proof (prim_destroying s _ s tt s' (destroying_refl s) He) as Hd.
  pose proof (stable_rtc _ _ _ (stable_destroying _) Hd Hbg)
    as (t' & Ht' & Hp).
  rewrite Ht in Ht'. apply app_inv_head in Ht'. subst t'.
  exists s'', t. split_and!; try done.
  rewrite <-submitted_destroy_main, Hm in Hp. simpl in Hp.
  unfold Pool.jobs in Hj.
  destruct (_inqueue (_destroy_pool s'')); [|simpl in Hj; lia].
  destruct (_running (_destroy_pool s'')); [|simpl in Hj; lia].
  done.
Qed.

Lemma stable_extends (s0 : state Obj World) m got : stable (extends s0 m got).
Proof. apply stable_exists. intros m'. apply stable_exists. intros got'.
  apply stable_history. Qed.

Lemma prim_extends (s0 : state Obj World) m got {X} (e : prim Obj X) :
  triple (extends s0 m got) (Call e) (λ _, extends s0 m got).
Proof.
  apply triple_exists. intros m'. apply triple_exists. intros got'.
  eapply triple_conseq; [| |apply prim_history]; [done|].
  intros x s Hs. exists (m' ++ [event_of e x]), (got' ++ got_of e x).
  by rewrite !app_assoc.
Qed.

(** [destroy] keeps no record of what it was given: two calls for the same
    object submit two tasks, and once [stop] has returned the destructor has
    been called twice for it. *)
Theorem destroy_twice_destroys_twice (s : state Obj World) obj s' :
  exec (Bind (destroy obj) (λ _, Bind (destroy obj) (λ _, stop))) s tt s' →
  ∃ t rest,
    trace s' = trace s ++ t ∧
    submitted_destroy t = obj :: obj :: rest ∧
    destroyed t ≡ₚ
      _inqueue (_destroy_pool s) ++ _running (_destroy_pool s) ++
      obj :: obj :: rest.
Proof.
  intros Hall. pose proof Hall as He.
  apply exec_bind_inv in He as ([] & s1 & He1 & He).
  apply exec_bind_inv in He as ([] & s2 & He2 & He3).
  pose proof (prim_history s [] [] _ s tt s1 (history_refl s) He1) as Hh1.
  pose proof (prim_history s _ _ _ s1 tt s2 Hh1 He2) as Hh2.
  simpl in Hh2.
  assert (extends s [Ev_submit_destroy obj; Ev_submit_destroy obj] [] s2)
    as Hx2 by (exists [], []; by rewrite !app_nil_r).
  destruct (triple_any _ (stable_extends s _ _) (@prim_extends s _ _) _ stop
              s2 tt s' Hx2 He3) as (m' & got' & t & Ht & Hm & _).
  destruct (triple_any _ (stable_destroying s) (@prim_destroying s) _ _
              s tt s' (destroying_refl s) Hall) as (t' & Ht' & Hp).
  rewrite Ht in Ht'. apply app_inv_head in Ht'. subst t'.
  pose proof (stop_quiescent _ _ _ I He3) as [_ Hj].
  exists t, (submitted_destroy m'). split; [done|].
  assert (submitted_destroy t = obj :: obj :: submitted_destroy m') as Hsub.
  { by rewrite <-submitted_destroy_main, Hm, submitted_destroy_app. }
  split; [done|]. rewrite Hsub in Hp. unfold Pool.jobs in Hj.
  destruct (_inqueue (_destroy_pool s')); [|simpl in Hj; lia].
  destruct (_running (_destroy_pool s')); [|simpl in Hj; lia].
  done.
Qed.

(** ** stop, again *)

Lemma close_not_running {T R} (p : ThreadPool T R) :
  _state p ≠ RUN → Pool.close p = p.
Proof. intros H. unfold Pool.close. by destruct (_state p). Qed.

Lemma stable_untouched (s0 : state Obj World) m :
  stable (λ s, quiescent s ∧ closed s ∧ untouched s0 m s).
Proof.
  apply stable_wstep. intros s s' (Hq & _ & _) Hw.
  by destruct (quiescent_wstep s s').
Qed.

Lemma prim_untouched (s0 : state Obj World) m {X} (e : prim Obj X) :
  match e with
  | pool_close _ | pool_join _ => True
  | _ => False
  end →
  triple (λ s, quiescent s ∧ closed s ∧ untouched s0 m s) (Call e)
    (λ x s, quiescent s ∧ closed s ∧ untouched s0 (m ++ [event_of e x]) s).
Proof.
  intros He. apply triple_call; [apply stable_untouched| |].
  { intros x. apply stable_untouched. }
  intros s x s' ([[Hd Hq] Hj] & [Hc Hdc] & (E1 & E2 & E3 & E4 & E5)) Hs.
  unfold quiescent, emptied, drained, closed, untouched.
  destruct e as [|obj|[]|[]| |]; try done; call_inv Hs; obs;
    rewrite ?E5, <-?app_assoc, ?close_not_running by done; by split_and!.
Qed.

Lemma qsize_untouched (s0 : state Obj World) m :
  triple (λ s, quiescent s ∧ closed s ∧ untouched s0 m s) (Call queue_qsize)
    (λ n s, (quiescent s ∧ closed s ∧ untouched s0 (m ++ [Ev_qsize 0]) s) ∧
            n = 0).
Proof.
  apply triple_call; [apply stable_untouched| |].
  { intros x. apply stable_and; [apply stable_untouched|apply stable_const]. }
  intros s x s' ([[Hd Hq] Hj] & [Hc Hdc] & (E1 & E2 & E3 & E4 & E5)) Hs.
  unfold quiescent, emptied, drained, closed, untouched.
  call_inv Hs; obs. rewrite ?E5, <-?app_assoc.
  split_and!; try done; by rewrite Hq.
Qed.

(** A second [stop] returns, and does nothing: the pools, the queue and the
    world are as the first [stop] left them, and all that has happened are
    the five operations of the calling thread, the loop finding the queue
    empty. *)
Theorem stop_twice_changes_nothing (s s1 : state Obj World) :
  exec stop s tt s1 →
  (∃ s2, exec stop s1 tt s2) ∧
  (∀ s2, exec stop s1 tt s2 →
     _create_pool s2 = _create_pool s1 ∧
     _destroy_pool s2 = _destroy_pool s1 ∧
     _queue s2 = [] ∧ world s2 = world s1 ∧
     trace s2 = trace s1 ++
       [Ev_close CreatePool; Ev_join CreatePool; Ev_qsize 0;
        Ev_close DestroyPool; Ev_join DestroyPool]).
Proof.
  intros He.
  pose proof (stop_quiescent _ _ _ I He) as Hq.
  pose proof (stop_closed _ _ _ I He) as Hc.
  assert (quiescent s1 ∧ closed s1 ∧ untouched s1 [] s1) as H0.
  { split_and!; try done. unfold untouched. by rewrite app_nil_r. }
  split.
  - destruct Hq as [[Hd Hqu] Hj]. destruct Hc as [Hc Hdc].
    pose proof (@close_not_running unit Obj) as Hcl1.
    pose proof (@close_not_running Obj unit) as Hcl2.
    eexists. unfold stop.
    eapply exec_bind; [by apply exec_call|].
    eapply exec_bind.
    { apply exec_call. simpl. unfold Pool.join. rewrite Hcl1 by done.
      destruct (_state (_create_pool s1)); [done|..];
        by rewrite decide_True by done. }
    eapply exec_bind.
    { apply exec_while. unfold unfold_while.
      eapply exec_bind.
      - eapply exec_bind; [by apply exec_call|apply exec_ret].
      - simpl. rewrite Hqu. simpl. apply exec_ret. }
    eapply exec_bind; [by apply exec_call|].
    apply exec_call. simpl. unfold Pool.join. rewrite Hcl2 by done.
    destruct (_state (_destroy_pool s1)); [done|..];
      by rewrite decide_True by done.
  - intros s2 He2.
    assert (triple (λ s, quiescent s ∧ closed s ∧ untouched s1 [] s) stop
              (λ _ s, quiescent s ∧ closed s ∧
                      untouched s1
                        [Ev_close CreatePool; Ev_join CreatePool; Ev_qsize 0;
                         Ev_close DestroyPool; Ev_join DestroyPool] s)) as Ht.
    { unfold stop.
      eapply triple_bind; [by apply prim_untouched|]. intros ?.
      eapply triple_bind; [by apply prim_untouched|]. intros ?.
      eapply triple_bind.
      { apply (triple_while _ (λ _, False) _ _
                 (λ _ s', quiescent s' ∧ closed s' ∧
                          untouched s1 [Ev_close CreatePool; Ev_join CreatePool;
                                        Ev_qsize 0] s'));
          [apply stable_untouched|apply stable_untouched| |by intros ?].
        eapply triple_bind; [apply qsize_untouched|].
        intros n s' v s'' [Hs' ->] [-> Hbg]%exec_ret_inv. simpl in *.
        by eapply (stable_rtc
                     (λ s, quiescent s ∧ closed s ∧ untouched s1 _ s) s' s'');
          [apply stable_untouched|..]. }
      intros ?.
      eapply triple_bind; [by apply prim_untouched|]. intros ?.
      by apply prim_untouched. }
    destruct (Ht _ _ _ H0 He2) as ([[_ Hq2] _] & _ & (E1 & E2 & E3 & E4 & E5)).
    by split_and!.
Qed.

(** ** No deadlock *)

(** Code that uses a fresh instance through [get] and [destroy] and then
    calls [stop] can, wherever it has got to and whatever the pool threads
    have done, run to its end, if the constructor does not raise. *)
Theorem clients_can_always_finish
    (constructor : @Constructor Obj World) destructor n nd w seed s0
    A (p : prog Obj A) :
  nonfailing constructor →
  create constructor destructor (Some n) nd w = Returns (seed, s0) →
  api A p →
  ∀ sched q s',
    run sched (Bind seed (λ _, Bind p (λ _, stop)), s0) = Some (q, s') →
    ∃ s'', exec q s' tt s''.
Proof.
  intros Hc (Hn & Hm & -> & ->)%create_inv Hp sched q s' Hrun. simpl in *.
  assert (live (@running Obj World 0)
            (Bind (for_in (seq 0 n) (λ _, _precalc))
                  (λ _, Bind p (λ _, stop)))) as Hl.
  { eapply live_bind; [apply seed_running|apply live_seed|intros ?].
    eapply live_bind; [by apply api_running|by apply api_live|].
    intros ?. eapply live_conseq; [|apply live_stop]. by intros s (_ & _ & ?). }
  destruct (Hl sched _ q s' (init_running _ _ _ _ w Hc Hn Hm) Hrun)
    as ([] & s'' & He).
  by exists s''.
Qed.

(** ** The queue fills up to the width *)

(** Between calls of [get] and [destroy] on a fresh instance whose
    constructor does not raise, the queue never holds more objects than the
    creation pool is wide, and the pool threads alone can fill it to exactly
    that many. *)
Theorem queue_settles_at_width
    (constructor : @Constructor Obj World) destructor n nd w seed s0
    A (p : prog Obj A) a s :
  nonfailing constructor →
  create constructor destructor (Some n) nd w = Returns (seed, s0) →
  api A p →
  exec (Bind seed (λ _, p)) s0 a s →
  length (_queue s) ≤ n ∧
  ∃ s', rtc bg s s' ∧ length (_queue s') = n ∧
        Pool.jobs (_create_pool s') = 0.
Proof.
  intros Hc (Hn & Hm & -> & ->)%create_inv Hp He. simpl in *.
  assert (running n s) as Hs.
  { refine (triple_bind (running 0) _ (λ _, running n) (λ _, p)
              (λ _, running n) (seed_running n 0) _ _ a s _ He);
      [intros ?; by apply api_running|by apply init_running]. }
  split.
  - destruct Hs as (_ & <- & _). unfold supply. lia.
  - destruct (drain_create s) as (s' & Hbg & Hd); [apply Hs|].
    pose proof (stable_rtc _ _ _ (stable_running n) Hs Hbg) as (_ & Hsup & _).
    exists s'. split_and!; try done. unfold supply in Hsup.
    unfold drained in Hd. lia.
Qed.

(** ** What a step of the calling thread is *)

Lemma main_step_effect {A} (p : prog Obj A) (s : state Obj World) :
  match main_step p s with
  | Stepped _ s' =>
      s' = s ∨ ∃ X (e : prim Obj X) x, prim_step e s = Value x s'
  | _ => True
  end.
Proof.
  induction p as [A a|A B p IHp k IHk|X e|c IHc b IHb]; simpl.
  - done.
  - destruct (main_step p s); try done. by left.
  - destruct (prim_step e s) as [x s'| |] eqn:He; try done.
    right. by exists X, e, x.
  - by left.
Qed.


(** ** Width of the pools *)

Lemma stable_within_width n m : stable (@within_width Obj World n m).
Proof.
  apply stable_wstep. intros s s' (Hn & Hm & Hc & Hd) Hw.
  unfold within_width.
  destruct Hw as [t q Hu Hlt|i t r w Hi Hr|obj q Hu|e q Hu|obj q Hu Hlt
                 |i obj r w Hi Hr|r q Hu]; obs; split_and!; try done; try lia.
  - apply length_delete_Some in Hi. lia.
  - apply length_delete_Some in Hi. lia.
Qed.

Lemma prim_within_width n m {X} (e : prim Obj X) (s : state Obj World) x s' :
  within_width n m s → prim_step e s = Value x s' → within_width n m s'.
Proof.
  intros (Hn & Hm & Hc & Hd) Hs. unfold within_width.
  destruct e as [|obj|[]|[]| |]; call_inv Hs; obs; try done;
    unfold Pool.close.
  - by destruct (_state (_create_pool s)).
  - by destruct (_state (_destroy_pool s)).
Qed.

(** However an instance is used, at no time are more calls of the
    constructor in flight than [num_create_threads], nor more calls of the
    destructor than [num_destroy_threads]. *)
Theorem tasks_in_flight_within_width
    (constructor : @Constructor Obj World) destructor n m w seed s0
    A (p : prog Obj A) sched q s' :
  create constructor destructor (Some n) (Some m) w = Returns (seed, s0) →
  run sched (Bind seed (λ _, p), s0) = Some (q, s') →
  length (_running (_create_pool s')) ≤ n ∧
  length (_running (_destroy_pool s')) ≤ m.
Proof.
  intros (Hn & Hm & -> & ->)%create_inv Hrun. simpl in *.
  assert (∀ sched (p : prog Obj A) s q s',
            within_width n m s → run sched (p, s) = Some (q, s') →
            within_width n m s') as Hinv.
  { clear. intros sched. induction sched as [|[|a] sched IH];
      intros p s q s' Hs; simpl.
    - by intros [= _ <-].
    - pose proof (main_step_effect p s) as He.
      destruct (main_step p s) as [|p1 s1| |]; try done. simpl.
      apply IH. destruct He as [->|(X & e & x & He)]; [done|].
      by eapply prim_within_width.
    - destruct (worker_step a s) as [s1|] eqn:Ha; [|done]. simpl.
      apply IH. by eapply stable_within_width. }
  eapply Hinv in Hrun as (_ & _ & ? & ?); [done|].
  unfold within_width. simpl. split_and!; try done; lia.
Qed.

(** ** get when an object is ready *)

(** With an object in the queue [get] returns the oldest one in three steps
    of the calling thread, the submission of a construction task among
    them, and no pool thread has to move; with an empty queue it does not
    return until a pool thread has moved. *)
Theorem get_returns_at_once_when_ready (s : state Obj World) :
  _state (_create_pool s) = RUN →
  (∀ obj q, _queue s = obj :: q →
     ∃ s', run [Main; Main; Main] (get, s) = Some (Ret obj, s') ∧
           _queue s' = q ∧
           _inqueue (_create_pool s') = _inqueue (_create_pool s) ++ [tt] ∧
           world s' = world s) ∧
  (_queue s = [] →
   ∀ k p s', run (replicate k Main) (get, s) = Some (p, s') →
             result p = None).
Proof.
  intros Hc. split.
  - intros obj q Hq. eexists. simpl. unfold Pool.apply_async.
    rewrite Hc. simpl. rewrite Hq. simpl. done.
  - intros Hq k p s'. destruct k as [|[|[|k]]]; simpl;
      unfold Pool.apply_async; rewrite ?Hc; simpl; rewrite ?Hq; simpl.
    + by intros [= <- <-].
    + by intros [= <- <-].
    + by intros [= <- <-].
    + done.
Qed.

End Semantics.

(** * test_stop, under every schedule *)

Ltac obs :=
  cbn [_constructor _destructor _create_pool _destroy_pool _queue world trace
       set_create_pool set_destroy_pool set_queue set_world
       _processes _state _inqueue _running _outqueue Pool.finish] in *;
  rewrite ?app_nil_r in *;
  rewrite ?submitted_app, ?constructed_app, ?failed_app, ?destroyed_app,
    ?submitted_destroy_app, ?main_events_app, ?returned_app, ?length_app,
    ?submitted_one in *;
  simpl in *;
  rewrite ?app_nil_r, ?Nat.add_0_r in *.

Ltac call_inv H :=
  apply prim_step_inv in H; simpl in H;
  repeat match type of H with
         | ∃ _, _ => destruct H as [? H]
         | _ ∧ _ => destruct H as [? H]
         end;
  subst.

Ltac mem :=
  repeat (rewrite elem_of_app || rewrite list_elem_of_singleton ||
          rewrite elem_of_cons).

Lemma marked_grows (u u' : state nat (list bool)) :
  Fixtures.marked u → wstep u u' →
  Fixtures.marked u' ∧ length (world u) ≤ length (world u').
Proof.
  intros (Hc & Hd & Hs & Hf & Hb & Hm) Hw. unfold Fixtures.marked.
  destruct Hw as [t q Hu Hlt|i t r w Hi Hr|obj q Hu|e q Hu|obj q Hu Hlt
                 |i obj r w Hi Hr|r q Hu]; obs.
  - done.
  - rewrite Hc in Hr. injection Hr as <- <-. obs.
    rewrite Nat.add_1_r, seq_S, Hs, Hf. simpl.
    split; [|lia]. split_and!; try done.
    + intros obj Ho.
      destruct (decide (obj = length (world u))) as [->|Hne]; [lia|].
      cut (obj < length (world u)); [lia|]. apply Hb. revert Ho. mem. tauto.
    + intros j Hj. destruct (decide (j < length (world u))) as [Hlt|Hge].
      * rewrite lookup_app_l by done. by apply Hm.
      * assert (j = length (world u)) as -> by lia.
        rewrite lookup_app_r, Nat.sub_diag by lia. simpl. f_equal.
        symmetry. apply bool_decide_eq_false. intros Hin.
        cut (length (world u) < length (world u)); [lia|].
        apply Hb. mem. tauto.
  - split; [|done]. split_and!; try done. rewrite Hu in Hb. simpl in Hb.
    intros o Ho. apply Hb. revert Ho.
    mem. tauto.
  - split; [|done]. split_and!; try done. by rewrite Hu in Hb.
  - split; [|done]. split_and!; try done. rewrite Hu in Hb.
    intros o Ho. apply Hb. revert Ho.
    mem. tauto.
  - rewrite Hd in Hr. injection Hr as <- <-. obs.
    rewrite length_insert. split; [|done].
    assert (obj < length (world u)) as Hobj.
    { apply Hb. apply list_elem_of_lookup_2 in Hi.
      mem. tauto. }
    split_and!; try done.
    + intros o Ho. apply Hb. revert Ho. mem.
      apply list_elem_of_lookup_2 in Hi.
      intros [?|[?|[?|[Hin|[?| ->]]]]]; try tauto.
      apply list_elem_of_delete_inv in Hin. tauto.
    + intros j Hj. rewrite list_lookup_insert.
      case_decide as Hoj.
      * destruct Hoj as [-> _]. f_equal. symmetry. apply bool_decide_eq_true.
        mem. tauto.
      * rewrite Hm by done. f_equal. apply bool_decide_ext.
        mem.
        split; [tauto|]. intros [?| ->]; [done|]. destruct Hoj. done.
  - done.
Qed.

Lemma stable_marked : stable Fixtures.marked.
Proof.
  apply stable_wstep. intros u u' Hu Hw.
  by destruct (marked_grows u u' Hu Hw).
Qed.

Lemma stable_marked_known obj :
  stable (λ u, Fixtures.marked u ∧ Fixtures.known obj u).
Proof.
  apply stable_wstep. intros u u' [Hu Hk] Hw.
  destruct (marked_grows u u' Hu Hw) as [? Hle]. split; [done|].
  unfold Fixtures.known in *. lia.
Qed.

Lemma quiet_marked {X} (e : prim nat X) :
  match e with destroy_pool_apply_async _ => False | _ => True end →
  triple Fixtures.marked (Call e) (λ _, Fixtures.marked).
Proof.
  intros He.
  apply triple_call; [apply stable_marked|intros ?; apply stable_marked|].
  intros u x u' (Hc & Hd & Hs & Hf & Hb & Hm) Hu. unfold Fixtures.marked.
  destruct e as [|obj|[]|[]| |]; try done; call_inv Hu; obs; try done.
  - unfold Pool.close. by destruct (_state (_create_pool u)).
  - unfold Pool.close. by destruct (_state (_destroy_pool u)).
  - split_and!; try done. intros o Ho. apply Hb.
    match goal with H : _queue u = _ |- _ => rewrite H end.
    revert Ho. mem. tauto.
Qed.

Lemma queue_get_marked :
  triple Fixtures.marked (Call queue_get)
         (λ obj u, Fixtures.marked u ∧ Fixtures.known obj u).
Proof.
  apply triple_call; [apply stable_marked|apply stable_marked_known|].
  intros u x u' Hu Hs.
  assert (Fixtures.known x u) as Hk.
  { destruct Hu as (_ & _ & _ & _ & Hb & _). call_inv Hs. apply Hb.
    match goal with H : _queue u = _ |- _ => rewrite H end. mem. tauto. }
  split.
  - eapply (quiet_marked queue_get I); [done|]. by apply exec_call.
  - call_inv Hs. by obs.
Qed.

Lemma destroy_marked obj :
  triple (λ u, Fixtures.marked u ∧ Fixtures.known obj u) (destroy obj)
         (λ _, Fixtures.marked).
Proof.
  apply triple_call; [apply stable_marked_known|intros ?; apply stable_marked|].
  intros u x u' [(Hc & Hd & Hs & Hf & Hb & Hm) Hk] Hu.
  unfold Fixtures.marked, Fixtures.known in *. call_inv Hu. obs.
  split_and!; try done. intros o Ho.
  destruct (decide (o = obj)) as [->|Hne]; [done|].
  apply Hb. revert Ho. mem. tauto.
Qed.


Lemma start_marked : Fixtures.marked Fixtures.start.
Proof.
  unfold Fixtures.marked. split_and!; try done.
  - intros obj Ho. by apply elem_of_nil in Ho.
  - simpl. lia.
Qed.


(** ** test_destroyed_in_threadpool, under every schedule *)

Lemma stable_unspoilt : stable Fixtures.unspoilt.
Proof.
  apply stable_wstep. intros u u' (Hu & Hd & Hj) Hw.
  split; [by destruct (marked_grows u u' Hu Hw)|].
  unfold Pool.jobs in *.
  destruct Hw as [t q Hq Hlt|i t r w Hi Hr|obj q Hq|e q Hq|obj q Hq Hlt
                 |i obj r w Hi Hr|r q Hq]; obs; try done.
  - rewrite Hq in Hj. simpl in Hj. lia.
  - apply lookup_lt_Some in Hi. lia.
  - rewrite Hq in Hj. simpl in Hj. lia.
Qed.

Lemma quiet_unspoilt {X} (e : prim nat X) :
  match e with destroy_pool_apply_async _ => False | _ => True end →
  triple Fixtures.unspoilt (Call e) (λ _, Fixtures.unspoilt).
Proof.
  intros He.
  apply triple_call; [apply stable_unspoilt|intros ?; apply stable_unspoilt|].
  intros u x u' (Hu & Hd & Hj) Hs. split.
  - eapply (quiet_marked e He); [done|]. by apply exec_call.
  - unfold Pool.jobs in *.
    destruct e as [|obj|[]|[]| |]; try done; call_inv Hs; obs; try done.
    unfold Pool.close. by destruct (_state (_destroy_pool u)).
Qed.

Lemma stable_doomed obj : stable (Fixtures.doomed obj).
Proof.
  apply stable_wstep. intros u u' [Hu Hd] Hw.
  split; [by destruct (marked_grows u u' Hu Hw)|]. revert Hd.
  destruct Hw as [t q Hq Hlt|i t r w Hi Hr|o q Hq|e q Hq|o q Hq Hlt
                 |i o r w Hi Hr|r q Hq]; obs; try done.
  - rewrite Hq. mem. tauto.
  - rewrite (delete_Permutation _ _ _ Hi) at 1. mem. tauto.
Qed.

Lemma destroy_doomed obj :
  triple (λ u, Fixtures.marked u ∧ Fixtures.known obj u) (destroy obj)
         (λ _, Fixtures.doomed obj).
Proof.
  intros u x u' Hu He. split; [by eapply destroy_marked|]. revert u x u' Hu He.
  apply (triple_call _ _ (λ _ u,
           obj ∈ _inqueue (_destroy_pool u) ++ _running (_destroy_pool u) ++
                 destroyed (trace u))).
  - apply stable_marked_known.
  - intros _. apply stable_wstep. intros u u' Hd Hw. revert Hd.
    destruct Hw as [t q Hq Hlt|i t r w Hi Hr|o q Hq|e q Hq|o q Hq Hlt
                   |i o r w Hi Hr|r q Hq]; obs; try done.
    + rewrite Hq. mem. tauto.
    + rewrite (delete_Permutation _ _ _ Hi) at 1. mem. tauto.
  - intros u x u' _ Hs. call_inv Hs. obs. mem. tauto.
Qed.

Lemma seed_get_unspoilt :
  triple Fixtures.unspoilt (Bind Fixtures.seed (λ _, get))
         (λ obj u, Fixtures.unspoilt u ∧ Fixtures.known obj u).
Proof.
  eapply triple_bind.
  { apply triple_for_in; [apply stable_unspoilt|].
    intros ?. by apply quiet_unspoilt. }
  intros ?. eapply triple_bind; [by apply quiet_unspoilt|]. intros ?.
  intros u obj u' Hu He. split.
  - by eapply (quiet_unspoilt queue_get I).
  - destruct Hu as [Hu _]. by destruct (queue_get_marked _ _ _ Hu He).
Qed.

Lemma start_unspoilt : Fixtures.unspoilt Fixtures.start.
Proof. split; [apply start_marked|done]. Qed.

Lemma start_staffed : staffed Fixtures.start.
Proof. split; simpl; lia. Qed.

(** test_destroyed_in_threadpool, whatever the threads do: the object that
    the first [get] returns has its [destroyed] flag unset; after
    [destroy obj] the destruction pool can finish its work, and whenever it
    has none left the flag of [obj] is set. *)
Theorem test_destroyed_under_every_schedule
    (obj : nat) (u : state nat (list bool)) :
  exec (Bind Fixtures.seed (λ _, get)) Fixtures.start obj u →
  world u !! obj = Some false ∧
  ∀ u1, exec (destroy obj) u tt u1 →
    (∃ u2, rtc bg u1 u2 ∧ Pool.jobs (_destroy_pool u2) = 0) ∧
    (∀ u2, rtc bg u1 u2 → Pool.jobs (_destroy_pool u2) = 0 →
           world u2 !! obj = Some true).
Proof.
  intros He.
  destruct (seed_get_unspoilt _ _ _ start_unspoilt He) as [(Hu & Hd & _) Hk].
  split.
  { destruct Hu as (_ & _ & _ & _ & _ & Hm). rewrite Hm by done.
    rewrite Hd. f_equal. }
  intros u1 He1. split.
  - apply drain_destroy.
    eapply (triple_any staffed stable_staffed (@prim_staffed _ _)); [|done].
    by eapply (triple_any staffed stable_staffed (@prim_staffed _ _));
      [apply start_staffed|].
  - intros u2 Hbg Hj.
    pose proof (destroy_doomed obj _ _ _ (conj Hu Hk) He1) as Hd1.
    pose proof (stable_rtc _ _ _ (stable_doomed obj) Hd1 Hbg)
      as [(_ & _ & _ & _ & Hb & Hm) Hin].
    unfold Pool.jobs in Hj.
    destruct (_inqueue (_destroy_pool u2)); [|simpl in Hj; lia].
    destruct (_running (_destroy_pool u2)); [|simpl in Hj; lia].
    simpl in Hin. rewrite Hm.
    + f_equal. by apply bool_decide_eq_true.
    + apply Hb. mem. tauto.
Qed.


(** * The scenarios of test_precalculate.py *)

(** test_new_create_on_get: two objects are ready after the seeding, and
    two again after a [get] and the construction it has asked for. *)
Example new_create_on_get :
  _queue Fixtures.warm = [0; 1] ∧ _queue Fixtures.served = [1; 2] ∧
  Pool.jobs (_create_pool Fixtures.served) = 0.
Proof. by vm_compute. Qed.

(** test_stop: 2 seed objects and 10 cycles make 12 objects, all
    destroyed when [stop] has returned. *)
Example test_stop :
  let c := (client Fixtures.seed 10, Fixtures.start) in
  ∃ s, run (schedule 1000 c) c = Some (Ret tt, s) ∧
       world s = replicate 12 true ∧
       constructed (trace s) = seq 0 12 ∧
       destroyed (trace s) = seq 0 12.
Proof. eexists. by vm_compute. Qed.

(** A constructor that raises leaves a [get] waiting for ever: the pools
    have nothing left to do and the queue is empty. *)
Example broken_constructor_blocks_get :
  let c := (Bind Fixtures.seed (λ _, get),
            __init__ Fixtures.broken_create default_destructor
              (mkPool 2 RUN [] [] []) (mkPool 1 RUN [] [] []) []) in
  ∃ p s, run (schedule 1000 c) c = Some (p, s) ∧
         main_step p s = Blocked ∧ _queue s = [] ∧
         Pool.jobs (_create_pool s) = 0 ∧
         ∀ a, worker_step a s = None.
Proof.
  eexists _, _. split; [by vm_compute|]. split_and!; try done.
  by intros [[]|[] []|[]].
Qed.

(** * The theorems at the objects of the tests *)

Lemma Factory_create_nonfailing : nonfailing Fixtures.Factory_create.
Proof. intros w. by eexists _, _. Defined.

Lemma warm_running : running 2 Fixtures.warm.
Proof.
  unfold running, healthy, pools, staffed.
  split_and!; try by vm_compute.
  - exact Factory_create_nonfailing.
  - vm_compute. lia.
Defined.

Lemma stop_from_warm : exec stop Fixtures.warm tt Fixtures.halted.
Proof.
  exists (schedule 1000 (stop, Fixtures.warm)), (Ret tt).
  split; by vm_compute.
Defined.

Lemma get_from_warm : exec get Fixtures.warm 0 Fixtures.served.
Proof.
  exists (schedule 1000 (get, Fixtures.warm)), (Ret 0).
  split; by vm_compute.
Defined.

Lemma stop_destroys_every_object_once_witness :
  create Fixtures.Factory_create (Some Fixtures.Obj_destroy) (Some 2) None []
    = Returns (Fixtures.seed, Fixtures.start) ∧
  nonfailing Fixtures.Factory_create ∧
  (∀ s', exec (client Fixtures.seed 10) Fixtures.start tt s' →
     length (constructed (trace s')) = 2 + 10 ∧
     constructed (trace s') ≡ₚ destroyed (trace s')) ∧
  (∀ sched q s',
     run sched (client Fixtures.seed 10, Fixtures.start) = Some (q, s') →
     ∃ s'', exec q s' tt s'').
Proof.
  split; [reflexivity|]. split; [apply Factory_create_nonfailing|].
  destruct (stop_destroys_every_object_once
              Fixtures.Factory_create (Some Fixtures.Obj_destroy) 2 None 10 []
              Fixtures.seed Fixtures.start eq_refl) as [H1 H2].
  destruct (H2 Factory_create_nonfailing) as [H3 H4].
  split; [|exact H4].
  intros s' He. split; [by apply H3 | by apply H1].
Defined.

Lemma stop_shutdown_protocol_witness :
  exec stop Fixtures.warm tt Fixtures.halted ∧
  pools RUN RUN Fixtures.warm ∧
  (∃ t1 t2,
     trace Fixtures.halted =
       trace Fixtures.warm ++ t1 ++ [Ev_join CreatePool] ++ t2 ++
       [Ev_join DestroyPool] ∧
     main_events t1 = [Ev_close CreatePool] ∧
     calls t1 = 0 ∧
     creations t2 = [] ∧
     main_events t2 =
       drain_events ([0; 1] ++ puts t1) ++ [Ev_qsize 0; Ev_close DestroyPool] ∧
     destroyed (t1 ++ t2) ≡ₚ [0; 1] ++ puts t1 ∧
     quiescent Fixtures.halted) ∧
  (∀ sched q s1, run sched (stop, Fixtures.warm) = Some (q, s1) →
     ∃ s', exec q s1 tt s').
Proof.
  destruct (stop_shutdown_protocol Fixtures.warm) as [H1 H2].
  split; [apply stop_from_warm|].
  split; [apply warm_running|].
  split; [apply (H1 _ stop_from_warm) | apply H2, warm_running].
Defined.

Lemma get_submits_then_pops_witness :
  _state (_create_pool Fixtures.warm) = RUN ∧
  exec get Fixtures.warm 0 Fixtures.served ∧
  running 2 Fixtures.warm ∧
  (∃ t, trace Fixtures.served = trace Fixtures.warm ++ t ∧
        main_events t = [Ev_submit_create; Ev_queue_get 0] ∧
        submitted t = 1 ∧
        _queue Fixtures.warm ++ puts t = 0 :: _queue Fixtures.served) ∧
  (∃ obj s', exec get Fixtures.warm obj s').
Proof.
  destruct (get_submits_then_pops Fixtures.warm) as (_ & H2 & H3).
  split; [reflexivity|]. split; [apply get_from_warm|].
  split; [apply warm_running|].
  split; [apply (H2 _ _ get_from_warm) | apply (H3 _ warm_running)].
Defined.

Lemma supply_is_creation_width_witness :
  create Fixtures.Factory_create (Some Fixtures.Obj_destroy) (Some 2) None []
    = Returns (Fixtures.seed, Fixtures.start) ∧
  nonfailing Fixtures.Factory_create ∧
  (∀ s, exec Fixtures.seed Fixtures.start tt s → running 2 s) ∧
  (∀ (s : state nat (list bool)) obj s',
     running 2 s → exec get s obj s' → running 2 s') ∧
  (∀ A (p : prog nat A) a s', api A p →
     exec (Bind Fixtures.seed (λ _, p)) Fixtures.start a s' → supply s' = 2).
Proof.
  split; [reflexivity|]. split; [apply Factory_create_nonfailing|].
  destruct (supply_is_creation_width
              Fixtures.Factory_create (Some Fixtures.Obj_destroy) 2 None []
              Fixtures.seed Fixtures.start eq_refl) as [_ H].
  destruct (H Factory_create_nonfailing) as (H1 & _ & _ & _ & H5 & H6).
  by split_and!.
Defined.

Lemma create_allocates_and_seeds_witness :
  1 ≤ 2 ∧ 1 ≤ 1 ∧
  ∃ seed s0,
    create Fixtures.Factory_create (Some Fixtures.Obj_destroy)
           (Some 2) (Some 1) [] = Returns (seed, s0) ∧
    _create_pool s0 = mkPool 2 RUN [] [] [] ∧
    _destroy_pool s0 = mkPool 1 RUN [] [] [] ∧
    _queue s0 = [] ∧
    (∀ s, exec seed s0 tt s → submitted (trace s) = 2 ∧ pools RUN RUN s).
Proof.
  assert (1 ≤ 2) as H2 by lia. assert (1 ≤ 1) as H1 by lia.
  split; [exact H2|]. split; [exact H1|].
  destruct (create_allocates_and_seeds
              Fixtures.Factory_create (Some Fixtures.Obj_destroy) 2 1 [] H2 H1)
    as (seed & s0 & Hc & _ & Hcp & Hdp & Hq & _ & _ & _ & Hs).
  exists seed, s0. split_and!; try done.
  intros s He. by destruct (Hs s He) as (_ & ? & _ & ?).
Defined.

Lemma destroy_submits_and_returns_witness :
  _state (_destroy_pool Fixtures.served) = RUN ∧
  ∃ s1,
    main_step (destroy 0) Fixtures.served = Stepped (Ret tt) s1 ∧
    _inqueue (_destroy_pool s1) = [0] ∧
    destroyed (trace s1) = [] ∧
    world s1 = [false; false; false] ∧
    _queue s1 = [1; 2].
Proof.
  split; [reflexivity|].
  destruct (destroy_submits_and_returns Fixtures.served 0 eq_refl)
    as (s1 & H1 & H2 & _ & _ & _ & H6 & H7 & H8 & _).
  exists s1. split_and!; [done|by rewrite H2|by rewrite H6|by rewrite H7
                         |by rewrite H8].
Defined.

Lemma constructor_failure_is_swallowed_witness :
  _running (_create_pool Fixtures.failing) !! 0 = Some tt ∧
  _constructor Fixtures.failing (world Fixtures.failing) =
    (Raises (Exception "constructor failed"), []) ∧
  ∃ s1, worker_step (Run CreatePool 0) Fixtures.failing = Some s1 ∧
        _queue s1 = [] ∧
        _outqueue (_create_pool s1) = [Raises (Exception "constructor failed")] ∧
        supply s1 = 2 ∧
        ∃ s3, worker_step (Handle CreatePool) s1 = Some s3 ∧
              _queue s3 = [] ∧ supply s3 = 1.
Proof.
  split; [reflexivity|]. split; [reflexivity|].
  destruct (constructor_failure_is_swallowed Fixtures.failing 0 tt
              (Exception "constructor failed") [] eq_refl eq_refl)
    as ((s1 & H1 & H2 & _ & H4 & _ & _ & H7) & Hh & _).
  exists s1. split_and!; try done.
  destruct (Hh s1 [] H4) as (s3 & G1 & G2 & _ & _ & _ & _ & G7).
  exists s3. split_and!; try done.
  - by rewrite G2, H2.
  - rewrite H7 in G7. by injection G7.
Defined.

Lemma get_and_destroy_raise_after_stop_witness :
  exec stop Fixtures.warm tt Fixtures.halted ∧
  main_step get Fixtures.halted = Raised (ValueError "Pool not running") ∧
  main_step (destroy 0) Fixtures.halted =
    Raised (ValueError "Pool not running").
Proof.
  split; [apply stop_from_warm|].
  destruct (get_and_destroy_raise_after_stop _ _ stop_from_warm)
    as (H1 & H2 & _).
  split; [exact H1 | exact (H2 0)].
Defined.

Lemma create_rejects_zero_width_witness :
  create Fixtures.Factory_create None (Some 1) (Some 0) [] =
    Raises (ValueError "Number of processes must be at least 1") ∧
  (default 2 (Some 1) < 1 ∨ default 1 (Some 0) < 1).
Proof.
  destruct (create_rejects_zero_width
              Fixtures.Factory_create None (Some 0) []) as [_ H].
  split; [reflexivity|]. by destruct (H (Some 1) _ eq_refl).
Defined.

(** C7, as the claim has it, fails: with a creation width of 0 [create]
    returns no instance. *)
Lemma create_zero_width_no_instance :
  ¬ ∃ seed s0,
      create Fixtures.Factory_create None (Some 0) None [] =
      Returns (seed, s0).
Proof. by intros (seed & s0 & H). Qed.

(** * The further properties at the objects of the tests *)

Lemma take_from_warm :
  exec (take 2) Fixtures.warm [0; 1] (Fixtures.after (take 2) Fixtures.warm).
Proof.
  exists (schedule 1000 (take 2, Fixtures.warm)), (Ret [0; 1]).
  split; by vm_compute.
Defined.

Lemma take_returns_oldest_first_witness :
  exec (take 2) Fixtures.warm [0; 1] (Fixtures.after (take 2) Fixtures.warm) ∧
  ∃ t, trace (Fixtures.after (take 2) Fixtures.warm) =
         trace Fixtures.warm ++ t ∧
       length [0; 1] = 2 ∧ submitted t = 2 ∧
       _queue Fixtures.warm ++ puts t =
         [0; 1] ++ _queue (Fixtures.after (take 2) Fixtures.warm).
Proof.
  split; [apply take_from_warm|].
  apply (take_returns_oldest_first _ _ _ _ take_from_warm).
Defined.

Lemma take_then_stop :
  let p := Bind Fixtures.seed (λ _, Bind (take 1) (λ objs,
             Bind stop (λ _, Ret objs))) in
  exec p Fixtures.start [0] (Fixtures.after p Fixtures.start).
Proof.
  intros p. exists (schedule 1000 (p, Fixtures.start)), (Ret [0]).
  split; by vm_compute.
Defined.

Lemma stop_spares_objects_taken_witness :
  let p := Bind Fixtures.seed (λ _, Bind (take 1) (λ objs,
             Bind stop (λ _, Ret objs))) in
  let s' := Fixtures.after p Fixtures.start in
  create Fixtures.Factory_create (Some Fixtures.Obj_destroy) (Some 2) None []
    = Returns (Fixtures.seed, Fixtures.start) ∧
  exec p Fixtures.start [0] s' ∧
  length [0] = 1 ∧
  constructed (trace s') ≡ₚ [0] ++ destroyed (trace s') ∧
  length (constructed (trace s')) + length (failed (trace s')) = 2 + 1 ∧
  length (destroyed (trace s')) = 2.
Proof.
  intros p s'. split; [reflexivity|]. split; [apply take_then_stop|].
  destruct (stop_spares_objects_taken
              Fixtures.Factory_create (Some Fixtures.Obj_destroy) 2 None 1 []
              Fixtures.seed Fixtures.start eq_refl [0] s' take_then_stop)
    as (H1 & H2 & H3 & H4).
  split_and!; [exact H1|exact H2|exact H3|].
  exact (H4 Factory_create_nonfailing).
Defined.

Lemma failing_barren : barren Fixtures.failing.
Proof. split; [|by split]. intros w. by eexists _, _. Defined.

Lemma get_never_returns_without_objects_witness :
  barren Fixtures.failing ∧ ∀ obj s', ¬ exec get Fixtures.failing obj s'.
Proof.
  split; [apply failing_barren|].
  apply (get_never_returns_without_objects _ failing_barren).
Defined.

Lemma served_staffed : staffed Fixtures.served.
Proof. split; vm_compute; lia. Defined.

Lemma destroy_from_served :
  exec (destroy 0) Fixtures.served tt
       (Fixtures.after (destroy 0) Fixtures.served).
Proof.
  exists (schedule 1000 (destroy 0, Fixtures.served)), (Ret tt).
  split; by vm_compute.
Defined.

Lemma destroy_is_carried_out_witness :
  staffed Fixtures.served ∧
  exec (destroy 0) Fixtures.served tt
       (Fixtures.after (destroy 0) Fixtures.served) ∧
  ∃ s'' t,
    rtc bg (Fixtures.after (destroy 0) Fixtures.served) s'' ∧
    trace s'' = trace Fixtures.served ++ t ∧
    main_events t = [Ev_submit_destroy 0] ∧
    Pool.jobs (_destroy_pool s'') = 0 ∧
    destroyed t ≡ₚ
      _inqueue (_destroy_pool Fixtures.served) ++
      _running (_destroy_pool Fixtures.served) ++ [0].
Proof.
  split; [apply served_staffed|]. split; [apply destroy_from_served|].
  apply (destroy_is_carried_out _ _ _ served_staffed destroy_from_served).
Defined.

Lemma destroy_twice_from_served :
  let p := Bind (destroy 0) (λ _, Bind (destroy 0) (λ _, stop)) in
  exec p Fixtures.served tt (Fixtures.after p Fixtures.served).
Proof.
  intros p. exists (schedule 1000 (p, Fixtures.served)), (Ret tt).
  split; by vm_compute.
Defined.

Lemma destroy_twice_destroys_twice_witness :
  let p := Bind (destroy 0) (λ _, Bind (destroy 0) (λ _, stop)) in
  exec p Fixtures.served tt (Fixtures.after p Fixtures.served) ∧
  ∃ t rest,
    trace (Fixtures.after p Fixtures.served) = trace Fixtures.served ++ t ∧
    submitted_destroy t = 0 :: 0 :: rest ∧
    destroyed t ≡ₚ
      _inqueue (_destroy_pool Fixtures.served) ++
      _running (_destroy_pool Fixtures.served) ++ 0 :: 0 :: rest.
Proof.
  intros p. split; [apply destroy_twice_from_served|].
  apply (destroy_twice_destroys_twice _ _ _ destroy_twice_from_served).
Defined.

Lemma stop_twice_changes_nothing_witness :
  exec stop Fixtures.warm tt Fixtures.halted ∧
  (∃ s2, exec stop Fixtures.halted tt s2) ∧
  (∀ s2, exec stop Fixtures.halted tt s2 →
     _queue s2 = [] ∧ world s2 = [true; true] ∧
     _destroy_pool s2 = _destroy_pool Fixtures.halted).
Proof.
  split; [apply stop_from_warm|].
  destruct (stop_twice_changes_nothing _ _ stop_from_warm) as [H1 H2].
  split; [exact H1|]. intros s2 He.
  destruct (H2 s2 He) as (_ & G2 & G3 & G4 & _).
  split_and!; [exact G3|by rewrite G4|exact G2].
Defined.

Lemma get_destroy_api : @api nat unit (Bind get destroy).
Proof. apply api_bind; [apply api_get|apply api_destroy]. Defined.

Lemma clients_can_always_finish_witness :
  nonfailing Fixtures.Factory_create ∧
  create Fixtures.Factory_create (Some Fixtures.Obj_destroy) (Some 2) None []
    = Returns (Fixtures.seed, Fixtures.start) ∧
  @api nat unit (Bind get destroy) ∧
  (let c := (Bind Fixtures.seed (λ _, Bind (Bind get destroy) (λ _, stop)),
             Fixtures.start) in
   ∃ q s', run [Main; Main; Worker (Take CreatePool)] c = Some (q, s') ∧
           ∃ s'', exec q s' tt s'').
Proof.
  split; [apply Factory_create_nonfailing|]. split; [reflexivity|].
  split; [apply get_destroy_api|]. simpl.
  eexists _, _. split; [reflexivity|].
  eapply (clients_can_always_finish
            Fixtures.Factory_create (Some Fixtures.Obj_destroy) 2 None []
            Fixtures.seed Fixtures.start unit (Bind get destroy)
            Factory_create_nonfailing eq_refl get_destroy_api
            [Main; Main; Worker (Take CreatePool)]).
  reflexivity.
Defined.

Lemma get_api : @api nat nat get.
Proof. apply api_get. Defined.

Lemma seed_then_get :
  let p := Bind Fixtures.seed (λ _, get) in
  exec p Fixtures.start 0 (Fixtures.after p Fixtures.start).
Proof.
  intros p. exists (schedule 1000 (p, Fixtures.start)), (Ret 0).
  split; by vm_compute.
Defined.

Lemma queue_settles_at_width_witness :
  let p := Bind Fixtures.seed (λ _, get) in
  let s := Fixtures.after p Fixtures.start in
  nonfailing Fixtures.Factory_create ∧
  create Fixtures.Factory_create (Some Fixtures.Obj_destroy) (Some 2) None []
    = Returns (Fixtures.seed, Fixtures.start) ∧
  @api nat nat get ∧
  exec p Fixtures.start 0 s ∧
  length (_queue s) ≤ 2 ∧
  ∃ s', rtc bg s s' ∧ length (_queue s') = 2 ∧
        Pool.jobs (_create_pool s') = 0.
Proof.
  intros p s. split; [apply Factory_create_nonfailing|].
  split; [reflexivity|]. split; [apply get_api|].
  split; [apply seed_then_get|].
  apply (queue_settles_at_width
           Fixtures.Factory_create (Some Fixtures.Obj_destroy) 2 None []
           Fixtures.seed Fixtures.start nat get 0 s
           Factory_create_nonfailing eq_refl get_api seed_then_get).
Defined.


Lemma tasks_in_flight_within_width_witness :
  let c := (Bind Fixtures.seed (λ _, get), Fixtures.start) in
  create Fixtures.Factory_create (Some Fixtures.Obj_destroy) (Some 2) (Some 1)
         [] = Returns (Fixtures.seed, Fixtures.start) ∧
  ∃ q s',
    run [Main; Main; Worker (Take CreatePool); Main; Main;
         Worker (Take CreatePool)] c = Some (q, s') ∧
    length (_running (_create_pool s')) = 2 ∧
    length (_running (_create_pool s')) ≤ 2 ∧
    length (_running (_destroy_pool s')) ≤ 1.
Proof.
  intros c. split; [reflexivity|]. eexists _, _.
  split; [reflexivity|]. split; [reflexivity|].
  apply (tasks_in_flight_within_width
           Fixtures.Factory_create (Some Fixtures.Obj_destroy) 2 1 []
           Fixtures.seed Fixtures.start nat get
           [Main; Main; Worker (Take CreatePool); Main; Main;
            Worker (Take CreatePool)] _ _ eq_refl eq_refl).
Defined.

Lemma get_returns_at_once_when_ready_witness :
  _state (_create_pool Fixtures.warm) = RUN ∧
  _queue Fixtures.warm = [0; 1] ∧
  (∃ s', run [Main; Main; Main] (get, Fixtures.warm) = Some (Ret 0, s') ∧
         _queue s' = [1] ∧ world s' = world Fixtures.warm) ∧
  _state (_create_pool Fixtures.start) = RUN ∧
  _queue Fixtures.start = [] ∧
  (∀ p s', run (replicate 3 Main) (get, Fixtures.start) = Some (p, s') →
           result p = None).
Proof.
  destruct (get_returns_at_once_when_ready Fixtures.warm eq_refl) as [H1 _].
  destruct (get_returns_at_once_when_ready Fixtures.start eq_refl) as [_ H2].
  split; [reflexivity|]. split; [reflexivity|].
  split.
  - destruct (H1 0 [1] eq_refl) as (s' & G1 & G2 & _ & G4).
    exists s'. split_and!; [exact G1|exact G2|exact G4].
  - split; [reflexivity|]. split; [reflexivity|]. apply (H2 eq_refl 3).
Defined.



Lemma destroy_after_first_get :
  let u := Fixtures.after (Bind Fixtures.seed (λ _, get)) Fixtures.start in
  exec (destroy 0) u tt (Fixtures.after (destroy 0) u).
Proof.
  intros u. exists (schedule 1000 (destroy 0, u)), (Ret tt).
  split; by vm_compute.
Defined.

Lemma test_destroyed_under_every_schedule_witness :
  let u := Fixtures.after (Bind Fixtures.seed (λ _, get)) Fixtures.start in
  let u1 := Fixtures.after (destroy 0) u in
  exec (Bind Fixtures.seed (λ _, get)) Fixtures.start 0 u ∧
  world u !! 0 = Some false ∧
  exec (destroy 0) u tt u1 ∧
  (∃ u2, rtc bg u1 u2 ∧ Pool.jobs (_destroy_pool u2) = 0) ∧
  Pool.jobs (_destroy_pool u1) = 0 ∧ world u1 !! 0 = Some true.
Proof.
  intros u u1. split; [apply seed_then_get|].
  destruct (test_destroyed_under_every_schedule 0 u seed_then_get) as [H1 H2].
  split; [exact H1|]. split; [apply destroy_after_first_get|].
  destruct (H2 u1 destroy_after_first_get) as [H3 H4].
  assert (Pool.jobs (_destroy_pool u1) = 0) as Hj by (by vm_compute).
  split; [exact H3|]. split; [exact Hj|]. apply (H4 u1); [apply rtc_refl|].
  exact Hj.
Defined.
